(** * The session bridge of the Codeium Chrome extension

    A shallow embedding of [src/common.ts] (the foreground
    [LanguageServerClient], the background [LanguageServerServiceWorkerClient]
    and the [ApiKeyPoller]) and of the service worker script (auth states,
    [clientMap] and the port listeners), followed by the properties of the
    specification that were checked against them.

    Conventions.
    - An [async] function is cut at its [await]s: the part up to the first
      [await] is one function, each continuation another; what the awaited
      promise settles to is an argument of the continuation.
    - Calls into the browser ([chrome.runtime], [console]) and into the
      upstream RPC client are recorded as a list of effects, oldest first.
    - A JS object that is shared by reference (an [AbortController], a
      service worker client held by a suspended call) lives in a store and is
      named by its index there.
    - What an awaited promise does is an argument wherever the code depends
      on it: the upstream RPC may resolve or reject, and so may
      [this.client] and the [chrome.runtime.sendMessage] of the [catch]
      block of [getCompletions], whose rejection nothing catches.  Reads of
      storage are taken to resolve.
    - The protobuf JSON codec, which is not part of the sources, is an
      interface.  [fromJsonString] throws on a text that is not a message of
      its type; that is [None] here, and a listener in which it throws ends
      there.
    - A JS [number] that only ever holds a small non-negative integer (the
      request counter) is an exact [Z]; the counters stay far below 2^53. *)

From stdpp Require Import gmap strings list fin_maps sorting.

Open Scope string_scope.
Open Scope list_scope.

(** ** Values shared by both sides *)

(** A JS [number] used as a request id.  [Number(undefined)] is [NaN], the
    id of a request without metadata; a port does not carry it (the frame
    arrives with [null]), so what is said of both sides together is said of
    requests with metadata. *)
Inductive number :=
  | NaN
  | Num (z : Z).

#[global] Instance number_eq_dec : EqDecision number.
Proof. solve_decision. Defined.

#[global] Instance number_countable : Countable number.
Proof.
  refine (inj_countable'
            (λ n, match n with NaN => None | Num z => Some z end)
            (λ o, match o with None => NaN | Some z => Num z end) _).
  by intros [].
Defined.

(** [Metadata] of [codeium_common_pb], with the fields [getMetadata] sets. *)
Module Metadata.
Record t := {
  ideName : string;
  ideVersion : string;
  extensionName : string;
  extensionVersion : string;
  apiKey : string;
  locale : string;
  sessionId : string;
  requestId : Z;          (* a bigint *)
  userAgent : string;
  url : string;
}.
End Metadata.

(** The two request messages; everything but [metadata] is opaque here. *)
Module GetCompletionsRequest.
Record t := { metadata : option Metadata.t; body : string }.
End GetCompletionsRequest.

Module AcceptCompletionRequest.
Record t := { metadata : option Metadata.t; completionId : string }.
End AcceptCompletionRequest.

(** The generated protobuf classes are not part of the sources; their JSON
    codec is an interface. *)
Class ProtoJson (M : Type) := {
  toJsonString : M → string;
  (** [None] where the real function throws *)
  fromJsonString : string → option M;
}.

(** [Storage['user']], as the service worker writes it in [login]. *)
Module User.
Record t := {
  apiKey : option string;
  name : option string;
  userPortalUrl : option string;
}.
End User.

Module IdeInfo.
Record t := { ideName : string; ideVersion : string }.
End IdeInfo.

(** What [getMetadata] reads from [navigator] and [window.location]. *)
Module Browser.
Record t := { language : string; userAgent : string; href : string }.
End Browser.

Definition EXTENSION_NAME : string := "chrome".
Definition EXTENSION_VERSION : string := "1.2.26".

(** Frames of the channel, foreground to background, by the branch of the
    listener they take: [kind === 'getCompletions'], else
    [kind == 'acceptCompletion'], else any other [kind]. *)
Inductive LanguageServerWorkerRequest :=
  | GetCompletionsRequestMessage (requestId : number) (request : string)
  | AcceptCompletionRequestMessage (request : string)
  | UnrecognizedRequest (kind : string).

(** Frames of the channel, background to foreground. *)
Inductive LanguageServerWorkerResponse :=
  | GetCompletionsResponseMessage (requestId : number) (response : option string)
  | UnrecognizedResponse (kind : string).

(** [getApiKey]: the promise resolves with [user?.apiKey], where [user] is
    what the extension answered to [{type: 'user'}].  It never rejects. *)
Definition getApiKey (response : option User.t) : option string :=
  response ≫= User.apiKey.

(** ** ApiKeyPoller *)
Module ApiKeyPoller.

(** The field is first the promise of the initial fetch ([settled] is what
    it has resolved to, if it has), later a plain value. *)
Inductive apiKeyField :=
  | Promise (settled : option (option string))
  | Plain (value : option string).

Record state := { apiKey : apiKeyField }.

(** [this.apiKey = getApiKey(extensionId)] in the constructor. *)
Definition constructor : state := {| apiKey := Promise None |}.

(** The promise of the constructor resolves; the field still holds it. *)
Definition initialResolved (p : state) (response : option User.t) : state :=
  match apiKey p with
  | Promise None => {| apiKey := Promise (Some (getApiKey response)) |}
  | _ => p
  end.

(** One run of the interval callback, from the point where its fetch has
    resolved: [this.apiKey = await getApiKey(extensionId)]. *)
Definition tick (p : state) (response : option User.t) : state :=
  {| apiKey := Plain (getApiKey response) |}.

Inductive event :=
  | InitialResolved (response : option User.t)
  | Tick (response : option User.t).

Definition step (p : state) (e : event) : state :=
  match e with
  | InitialResolved r => initialResolved p r
  | Tick r => tick p r
  end.

Definition run (es : list event) : state := foldl step constructor es.

End ApiKeyPoller.

(** ** LanguageServerServiceWorkerClient (background side) *)
Module LanguageServerServiceWorkerClient.

(** The Connect error codes; only [Canceled] is named by the code. *)
Definition Code_Canceled : Z := 1.

Inductive error :=
  | ConnectError (code : Z) (message : string)
  | Error (message : string).

(** A client with every [AbortController] it has created: [controllers]
    holds their [aborted] flags in creation order, and the field
    [abortController] names one of them. *)
Record state := {
  sessionId : string;
  controllers : list bool;
  abortController : option nat;
}.

Definition constructor (sessionId : string) : state :=
  {| sessionId := sessionId; controllers := []; abortController := None |}.

Definition getHeaders (this : state) (apiKey : option string)
  : gmap string string :=
  match apiKey with
  | None => ∅
  | Some k => {[ "Authorization" := "Basic " +:+ k +:+ "-" +:+ sessionId this ]}
  end.

(** [signal.aborted] *)
Definition aborted (this : state) (signal : nat) : bool :=
  default false (controllers this !! signal).

(** [controller.abort()] *)
Definition abort (signal : nat) (cs : list bool) : list bool :=
  <[signal := true]> cs.

Section calls.
Context {Response : Type}.

Inductive outcome :=
  | Fulfilled (response : Response)
  | Rejected (err : error).

Inductive effect :=
  | ConsoleLog (text : string)
  (** [chrome.runtime.sendMessage(chrome.runtime.id, {type: 'error', message})] *)
  | SendErrorMessage (message : string)
  | CallGetCompletions (request : GetCompletionsRequest.t) (signal : nat)
                       (headers : gmap string string)
  | CallAcceptCompletion (request : AcceptCompletionRequest.t)
                         (headers : gmap string string).

(** What an effect list sent to the process-status interface. *)
Definition reported (eff : list effect) : list string :=
  omap (λ e, match e with SendErrorMessage m => Some m | _ => None end) eff.

(** [getCompletions], up to [await this.client]: the previous controller
    is aborted and a new one installed.  Returns the new [signal]. *)
Definition getCompletions_begin (this : state) : state * nat :=
  let cs := match abortController this with
            | Some c => abort c (controllers this)
            | None => controllers this
            end in
  let signal := length cs in
  ({| sessionId := sessionId this;
      controllers := cs ++ [false];
      abortController := Some signal |}, signal).

(** ... from there to [await getCompletionsPromise]: the upstream call. *)
Definition getCompletions_call (this : state)
    (request : GetCompletionsRequest.t) (signal : nat) : effect :=
  CallGetCompletions request signal
    (getHeaders this
       (Metadata.apiKey <$> GetCompletionsRequest.metadata request)).

(** How far [getCompletions] gets when the upstream promise settles: it
    returns, or it has a failure to report and comes to the [await] of
    [chrome.runtime.sendMessage]. *)
Inductive progress :=
  | Returns (result : option Response)
  | Reports (message : string).

(** ... and from the moment the upstream promise settles. *)
Definition getCompletions_settled (this : state) (signal : nat)
    (o : outcome) : progress :=
  match o with
  | Fulfilled r => Returns (Some r)
  | Rejected err =>
      if aborted this signal then Returns None
      else
        match err with
        | ConnectError code message =>
            if decide (code ≠ Code_Canceled)
            then Reports message
            else Returns None
        | Error message => Reports message
        end
  end.

(** What a call that reports does before it awaits the send. *)
Definition report (message : string) : list effect :=
  [ConsoleLog message; SendErrorMessage message].

(** What was done by the time [getCompletions] returns or suspends again. *)
Definition effects_of (p : progress) : list effect :=
  match p with
  | Returns _ => []
  | Reports message => report message
  end.

(** How a call of [getCompletions] ends. *)
Inductive completion :=
  | Returned (result : option Response)
  (** the promise of the call rejects *)
  | Thrown.

(** ... and from the moment the send to the process-status interface
    settles: [sent] tells whether it resolved.  The [await] sits in the
    [catch] block, so a rejection leaves [getCompletions]. *)
Definition getCompletions_reported (sent : bool) : completion :=
  if sent then Returned None else Thrown.

(** The result a caller is to get for an upstream outcome: the response of
    a call that succeeded, nothing for one that failed. *)
Definition result_of (o : outcome) : option Response :=
  match o with
  | Fulfilled r => Some r
  | Rejected _ => None
  end.

(** [acceptedLastCompletion], from the moment [this.client] is there. *)
Definition acceptedLastCompletion_call (this : state)
    (request : AcceptCompletionRequest.t) : effect :=
  CallAcceptCompletion request
    (getHeaders this
       (Metadata.apiKey <$> AcceptCompletionRequest.metadata request)).

(** ... and when the call has settled, [failure] being the message of
    what it threw. *)
Definition acceptedLastCompletion_settled (failure : option string)
  : list effect :=
  match failure with
  | Some message => [ConsoleLog message]
  | None => []
  end.
End calls.

Arguments outcome : clear implicits.

End LanguageServerServiceWorkerClient.

(** ** LanguageServerClient (foreground side) *)
Module LanguageServerClient.

Section client.
Context {Response : Type} {RJ : ProtoJson Response}
        {QJ : ProtoJson GetCompletionsRequest.t}
        {AJ : ProtoJson AcceptCompletionRequest.t}.

(** Ports are numbered in the order [createPort] opens them, promises in
    the order [getCompletions] creates them.  [promiseMap] maps a request
    id to the promise its [resolve] function settles. *)
Record state := {
  sessionId : string;
  port : nat;
  requestId : Z;
  promiseMap : gmap number nat;
  promises : nat;
  apiKeyPoller : ApiKeyPoller.state;
}.

Inductive effect :=
  (** [chrome.runtime.connect(extensionId, {name})] *)
  | Connect (port : nat) (name : string)
  | PostMessage (port : nat) (message : LanguageServerWorkerRequest)
  (** a stored [resolve] function is called with [res] *)
  | Resolve (promise : nat) (res : option Response).

(** [new LanguageServerClient(extensionId)], [uuid] being what [uuidv4()]
    returned. *)
Definition constructor (uuid : string) : state * list effect :=
  ({| sessionId := uuid; port := 0; requestId := 0; promiseMap := ∅;
      promises := 0; apiKeyPoller := ApiKeyPoller.constructor |},
   [Connect 0 uuid]).

(** The [onDisconnect] listener of any port: [this.port = this.createPort()]. *)
Definition onDisconnect (this : state) : state * list effect :=
  let fresh := S (port this) in
  ({| sessionId := sessionId this; port := fresh;
      requestId := requestId this; promiseMap := promiseMap this;
      promises := promises this; apiKeyPoller := apiKeyPoller this |},
   [Connect fresh (sessionId this)]).

(** [res] of the [onMessage] listener: [undefined] for a frame without a
    response, else what [GetCompletionsResponse.fromJsonString] makes of
    it.  [None] when that throws. *)
Definition decode_response (response : option string)
  : option (option Response) :=
  match response with
  | None => Some None
  | Some text => Some <$> fromJsonString text
  end.

(** The [onMessage] listener of any port.  When the response does not
    decode, the listener ends before it looks into [promiseMap]. *)
Definition onMessage (this : state) (message : LanguageServerWorkerResponse)
  : state * list effect :=
  match message with
  | GetCompletionsResponseMessage id response =>
      match decode_response response with
      | Some res =>
          ({| sessionId := sessionId this; port := port this;
              requestId := requestId this;
              promiseMap := delete id (promiseMap this);
              promises := promises this; apiKeyPoller := apiKeyPoller this |},
           match promiseMap this !! id with
           | Some p => [Resolve p res]
           | None => []
           end)
      | None => (this, [])
      end
  | UnrecognizedResponse _ => (this, [])
  end.

Definition getMetadata (this : state) (browser : Browser.t)
    (ideInfo : IdeInfo.t) (apiKey : string) : state * Metadata.t :=
  let next := (requestId this + 1)%Z in
  ({| sessionId := sessionId this; port := port this; requestId := next;
      promiseMap := promiseMap this; promises := promises this;
      apiKeyPoller := apiKeyPoller this |},
   {| Metadata.ideName := IdeInfo.ideName ideInfo;
      Metadata.ideVersion := IdeInfo.ideVersion ideInfo;
      Metadata.extensionName := EXTENSION_NAME;
      Metadata.extensionVersion := EXTENSION_VERSION;
      Metadata.apiKey := apiKey;
      Metadata.locale := Browser.language browser;
      Metadata.sessionId := sessionId this;
      Metadata.requestId := next;
      Metadata.userAgent := Browser.userAgent browser;
      Metadata.url := Browser.href browser |}).

(** [Number(request.metadata?.requestId)] *)
Definition requestId_of (request : GetCompletionsRequest.t) : number :=
  match GetCompletionsRequest.metadata request with
  | Some m => Num (Metadata.requestId m)
  | None => NaN
  end.

(** Returns the promise handed to the caller. *)
Definition getCompletions (this : state) (request : GetCompletionsRequest.t)
  : state * nat * list effect :=
  let id := requestId_of request in
  let prom := promises this in
  ({| sessionId := sessionId this; port := port this;
      requestId := requestId this;
      promiseMap := <[id := prom]> (promiseMap this);
      promises := S prom; apiKeyPoller := apiKeyPoller this |},
   prom,
   [PostMessage (port this)
      (GetCompletionsRequestMessage id (toJsonString request))]).

Definition acceptedLastCompletion (this : state) (browser : Browser.t)
    (ideInfo : IdeInfo.t) (apiKey : string) (completionId : string)
  : state * list effect :=
  let '(this', metadata) := getMetadata this browser ideInfo apiKey in
  let request := {| AcceptCompletionRequest.metadata := Some metadata;
                    AcceptCompletionRequest.completionId := completionId |} in
  (this', [PostMessage (port this')
             (AcceptCompletionRequestMessage (toJsonString request))]).

(** What can happen to a client.  [Completions] is a caller asking for
    completions: the metadata of [getMetadata] goes into the request that
    is handed to [getCompletions]. *)
Inductive event :=
  | GetMetadata (browser : Browser.t) (ideInfo : IdeInfo.t) (apiKey : string)
  | GetCompletions (request : GetCompletionsRequest.t)
  | Completions (browser : Browser.t) (ideInfo : IdeInfo.t) (apiKey : string)
                (body : string)
  | AcceptedLastCompletion (browser : Browser.t) (ideInfo : IdeInfo.t)
                           (apiKey : string) (completionId : string)
  (** the [onDisconnect] listener of a port runs *)
  | Disconnected
  (** the [onMessage] listener of port [port] runs; the listeners of all
      ports are the same closure over [this] *)
  | Message (port : nat) (message : LanguageServerWorkerResponse).

Definition step (this : state) (e : event) : state * list effect :=
  match e with
  | GetMetadata b i k => (fst (getMetadata this b i k), [])
  | GetCompletions r =>
      let '(this', _, eff) := getCompletions this r in (this', eff)
  | Completions b i k body =>
      let '(this', metadata) := getMetadata this b i k in
      let '(this'', _, eff) :=
        getCompletions this'
          {| GetCompletionsRequest.metadata := Some metadata;
             GetCompletionsRequest.body := body |} in
      (this'', eff)
  | AcceptedLastCompletion b i k c => acceptedLastCompletion this b i k c
  | Disconnected => onDisconnect this
  | Message _ m => onMessage this m
  end.

Fixpoint run (this : state) (es : list event) : state * list effect :=
  match es with
  | [] => (this, [])
  | e :: es' =>
      let '(this', eff) := step this e in
      let '(this'', eff') := run this' es' in
      (this'', eff ++ eff')
  end.

(** The request ids [getMetadata] hands out along a run, oldest first. *)
Fixpoint allocated (this : state) (es : list event) : list Z :=
  match es with
  | [] => []
  | e :: es' =>
      let this' := fst (step this e) in
      match e with
      | GetMetadata _ _ _ | Completions _ _ _ _
      | AcceptedLastCompletion _ _ _ _ =>
          requestId this' :: allocated this' es'
      | _ => allocated this' es'
      end
  end.

(** The request of a [GetCompletions] carries a request id that
    [getMetadata] has handed out before. *)
Definition allocated_before (this : state) (e : event) : Prop :=
  match e with
  | GetCompletions r =>
      ∃ z, requestId_of r = Num z ∧ (0 < z ≤ requestId this)%Z
  | _ => True
  end.

(** A caller that only sends requests whose metadata it got from
    [getMetadata] of this client. *)
Fixpoint from_getMetadata (this : state) (es : list event) : Prop :=
  match es with
  | [] => True
  | e :: es' =>
      allocated_before this e ∧ from_getMetadata (fst (step this e)) es'
  end.

(** Every pending request id is a number the counter has already passed. *)
Definition bounded (this : state) : Prop :=
  map_Forall (λ id _, ∃ z, id = Num z ∧ (z ≤ requestId this)%Z)
             (promiseMap this).

(** Every stored resolver belongs to a promise made earlier, and no two
    entries hold the same one. *)
Definition own_resolvers (this : state) : Prop :=
  map_Forall (λ _ p, p < promises this) (promiseMap this)
  ∧ ∀ id1 id2 p, promiseMap this !! id1 = Some p →
                 promiseMap this !! id2 = Some p → id1 = id2.

(** The promises an effect list resolves. *)
Definition resolved (eff : list effect) : list nat :=
  omap (λ e, match e with Resolve p _ => Some p | _ => None end) eff.

(** Event [e], in state [this], bears on the entry of [promiseMap] under
    [id]: a frame with this id arrives whose response is absent or
    decodes, or a request is stored under the id. *)
Definition touches (id : number) (this : state) (e : event) : bool :=
  match e with
  | GetCompletions r => bool_decide (requestId_of r = id)
  | Completions _ _ _ _ => bool_decide (Num (requestId this + 1) = id)
  | Message _ (GetCompletionsResponseMessage id' response) =>
      match decode_response response with
      | Some _ => bool_decide (id' = id)
      | None => false
      end
  | _ => false
  end.

(** No event of a run bears on the entry under [id]. *)
Fixpoint untouched (id : number) (this : state) (es : list event) : Prop :=
  match es with
  | [] => True
  | e :: es' =>
      touches id this e = false ∧ untouched id (fst (step this e)) es'
  end.
End client.

Arguments effect : clear implicits.

End LanguageServerClient.

(** ** The service worker script *)
Module ServiceWorker.

Module Client := LanguageServerServiceWorkerClient.

(** A field of an untyped message: what the listeners can tell apart.  An
    object or array is known by the string [ToPrimitive] makes of it
    (["success"] for the array [['success']]); [JOther] is a number, a
    boolean or [null]. *)
Inductive jsval :=
  | JUndefined
  | JString (s : string)
  | JObject (primitive : string)
  | JOther.

#[global] Instance jsval_eq_dec : EqDecision jsval.
Proof. solve_decision. Defined.

(** [v == lit] for a string literal that is not numeric: a string equals
    it strictly, an object by its primitive; a number, a boolean, [null]
    and [undefined] never do. *)
Definition loosely (v : jsval) (lit : string) : bool :=
  match v with
  | JString s | JObject s => bool_decide (s = lit)
  | JUndefined | JOther => false
  end.

(** A message to [chrome.runtime.onMessageExternal], by the fields the
    listener reads.  (On [null] the listener throws at its first test.) *)
Record ExternalMessage := {
  type : jsval;
  token : jsval;
  state_ : jsval;          (* the field [state] *)
  message : jsval;
}.

(** A message to [chrome.runtime.onMessage], by its [type]. *)
Inductive InternalMessage :=
  | StateMessage (state : string)      (* [{type: 'state', payload: {state}}] *)
  | ManualMessage (token : string)     (* [{type: 'manual', token}] *)
  | UnrecognizedMessage.

(** A [chrome.runtime.Port] of [onConnectExternal]: the browser makes one
    object per connection ([id]); the other side chooses [name]. *)
Record Port := { id : nat; name : string }.

#[global] Instance Port_eq_dec : EqDecision Port.
Proof. solve_decision. Defined.

(** A suspended invocation of the port's [onMessage] listener. [client]
    indexes the store of client objects. *)
Inductive task :=
  (** in [getCompletions], at [await this.client] *)
  | AwaitClient (port : Port) (requestId : number) (client : nat)
                (request : GetCompletionsRequest.t) (signal : nat)
  (** in [getCompletions], at [await getCompletionsPromise] *)
  | AwaitCompletions (port : Port) (requestId : number) (client : nat)
                     (signal : nat)
  (** in the [catch] block of [getCompletions], at
      [await chrome.runtime.sendMessage(..)] *)
  | AwaitReport (port : Port) (requestId : number)
  (** in [acceptedLastCompletion], at [await this.client] *)
  | AwaitClientAccept (client : nat) (request : AcceptCompletionRequest.t)
  (** in [acceptedLastCompletion], at the [await] of the call *)
  | AwaitAccept
  | Finished.

Record state := {
  authStates : list string;
  clientMap : gmap string nat;
  (** every [LanguageServerServiceWorkerClient] object made so far *)
  clients : list Client.state;
  tasks : list task;
}.

Definition initial : state :=
  {| authStates := []; clientMap := ∅; clients := []; tasks := [] |}.

Inductive effect :=
  | Log (text : string)
  | OfClient (e : Client.effect)
  (** [port.postMessage(reply)] is called *)
  | PostMessage (port : Port) (reply : LanguageServerWorkerResponse)
  | SendResponseUser (user : option User.t)
  | SendResponseAllowlist
  | InitializeStorageWithDefaults
  | LoggedIn
  | LoggedOut
  | Unhealthy (message : jsval)
  (** a call of [login(token)], which exchanges the token with [registerUser] *)
  | Login (token : string)
  | TabsCreate (url : string).

(** [authStates.indexOf(s)], [None] for -1 *)
Fixpoint indexOf (s : string) (l : list string) : option nat :=
  match l with
  | [] => None
  | x :: l' => if decide (x = s) then Some 0 else S <$> indexOf s l'
  end.

Definition set_authStates (st : state) (l : list string) : state :=
  {| authStates := l; clientMap := clientMap st; clients := clients st;
     tasks := tasks st |}.

Definition set_clientMap (st : state) (m : gmap string nat) : state :=
  {| authStates := authStates st; clientMap := m; clients := clients st;
     tasks := tasks st |}.

Definition set_clients (st : state) (cs : list Client.state) : state :=
  {| authStates := authStates st; clientMap := clientMap st; clients := cs;
     tasks := tasks st |}.

Definition set_tasks (st : state) (ts : list task) : state :=
  {| authStates := authStates st; clientMap := clientMap st;
     clients := clients st; tasks := ts |}.

(** [(await getStorageItem('user'))?.apiKey === undefined] *)
Definition no_apiKey (user : option User.t) : bool :=
  bool_decide (user ≫= User.apiKey = None).

(** The [onInstalled] listener; the only thing it does to the state is the
    [push]. *)
Definition onInstalled (st : state) (user : option User.t) (uuid : string)
    (generalPortalUrl : option string) (runtimeId : string)
  : state * list effect :=
  if no_apiKey user then
    let portalUrl := default "https://www.codeium.com" generalPortalUrl in
    (set_authStates st (authStates st ++ [uuid]),
     [InitializeStorageWithDefaults;
      Log "Extension successfully installed!";
      LoggedOut;
      TabsCreate (portalUrl +:+ "/profile?redirect_uri=chrome-extension://"
                  +:+ runtimeId +:+ "&state=" +:+ uuid)])
  else
    (st, [InitializeStorageWithDefaults;
          Log "Extension successfully installed!"; LoggedIn]).

(** The [onMessageExternal] listener.  [user] is what storage holds.  The
    first two tests are [===], the next two [==]. *)
Definition onMessageExternal (st : state) (m : ExternalMessage)
    (user : option User.t) : state * list effect :=
  if decide (type m = JString "user") then
    (st, SendResponseUser user :: if no_apiKey user then [LoggedOut] else [])
  else if decide (type m = JString "allowlist") then
    (st, [SendResponseAllowlist])
  else if loosely (type m) "error" then
    (st, [Unhealthy (message m)])
  else if loosely (type m) "success" then
    (st, [LoggedIn])
  else
    match token m, state_ m with
    | JString tok, JString s =>
        match indexOf s (authStates st) with
        | None => (st, [Log "Unexpected state:"])
        | Some stateIndex =>
            (set_authStates st (delete stateIndex (authStates st)),
             [Login tok])
        end
    | _, _ => (st, [Log "Unexpected message:"])
    end.

Definition onStartup (st : state) (user : option User.t)
  : state * list effect :=
  (st, if no_apiKey user then [LoggedOut] else [LoggedIn]).

(** The [onMessage] listener of the runtime. *)
Definition onMessage (st : state) (m : InternalMessage)
  : state * list effect :=
  match m with
  | StateMessage s => (set_authStates st (authStates st ++ [s]), [])
  | ManualMessage tok => (st, [Login tok])
  | UnrecognizedMessage => (st, [Log "Unrecognized message:"])
  end.

(** The [onConnectExternal] listener. *)
Definition onConnectExternal (st : state) (port : Port) : state :=
  {| authStates := authStates st;
     clientMap := <[name port := length (clients st)]> (clientMap st);
     clients := clients st ++ [Client.constructor (name port)];
     tasks := tasks st |}.

(** The [onDisconnect] listener of a port. *)
Definition onDisconnect (st : state) (port : Port) : state :=
  set_clientMap st (delete (name port) (clientMap st)).

Section listeners.
Context {Response : Type} {RJ : ProtoJson Response}
        {QJ : ProtoJson GetCompletionsRequest.t}
        {AJ : ProtoJson AcceptCompletionRequest.t}.

(** [clientMap.get(port.name)], as the object *)
Definition client_of (st : state) (port : Port) : option (nat * Client.state) :=
  c ← clientMap st !! name port; this ← clients st !! c; Some (c, this).

(** The [onMessage] listener of a port, up to its first suspension.
    Without a client, [client?.getCompletions(..)] is [undefined], its
    argument is not evaluated, and the reply follows at once.  With a
    client the request is decoded first: when [fromJsonString] throws, the
    listener ends before the client is called. *)
Definition onPortMessage (st : state) (m : LanguageServerWorkerRequest)
    (port : Port) : state * list effect :=
  match m with
  | GetCompletionsRequestMessage requestId request =>
      match client_of st port with
      | Some (c, this) =>
          match fromJsonString request with
          | Some decoded =>
              let '(this', signal) := Client.getCompletions_begin this in
              (set_tasks (set_clients st (<[c := this']> (clients st)))
                 (tasks st ++ [AwaitClient port requestId c decoded signal]),
               [])
          | None => (st, [])
          end
      | None =>
          (st, [PostMessage port
                  (GetCompletionsResponseMessage requestId None)])
      end
  | AcceptCompletionRequestMessage request =>
      match client_of st port with
      | Some (c, _) =>
          match fromJsonString request with
          | Some decoded =>
              (set_tasks st (tasks st ++ [AwaitClientAccept c decoded]), [])
          | None => (st, [])
          end
      | None => (st, [])
      end
  | UnrecognizedRequest _ => (st, [Log "Unrecognized message:"])
  end.

(** [this.client] has resolved for task [i]: the upstream call goes out. *)
Definition clientResolved (st : state) (i : nat) : state * list effect :=
  match tasks st !! i with
  | Some (AwaitClient port requestId c request signal) =>
      match clients st !! c with
      | Some this =>
          (set_tasks st
             (<[i := AwaitCompletions port requestId c signal]> (tasks st)),
           [OfClient (Client.getCompletions_call this request signal)])
      | None => (st, [])
      end
  | Some (AwaitClientAccept c request) =>
      match clients st !! c with
      | Some this =>
          (set_tasks st (<[i := AwaitAccept]> (tasks st)),
           [OfClient (Client.acceptedLastCompletion_call this request)])
      | None => (st, [])
      end
  | _ => (st, [])
  end.

(** [this.client] has rejected for task [i], [message] being the message
    of the error.  [getCompletions] awaits it outside its [try], so the
    rejection leaves the listener and nothing is posted;
    [acceptedLastCompletion] awaits it inside and logs. *)
Definition clientRejected (st : state) (i : nat) (message : string)
  : state * list effect :=
  match tasks st !! i with
  | Some (AwaitClient _ _ _ _ _) =>
      (set_tasks st (<[i := Finished]> (tasks st)), [])
  | Some (AwaitClientAccept _ _) =>
      (set_tasks st (<[i := Finished]> (tasks st)),
       OfClient <$> Client.acceptedLastCompletion_settled (Some message))
  | _ => (st, [])
  end.

(** The reply of the listener, once [getCompletions] has returned
    [response]. *)
Definition reply (port : Port) (requestId : number)
    (response : option Response) : effect :=
  PostMessage port
    (GetCompletionsResponseMessage requestId (toJsonString <$> response)).

(** The upstream [getCompletions] of task [i] has settled: the rest of
    [getCompletions] up to its [return] and the reply of the listener, or
    up to the [await] of the status send. *)
Definition completionsSettled (st : state) (i : nat)
    (o : Client.outcome Response) : state * list effect :=
  match tasks st !! i with
  | Some (AwaitCompletions port requestId c signal) =>
      match clients st !! c with
      | Some this =>
          match Client.getCompletions_settled this signal o with
          | Client.Returns response =>
              (set_tasks st (<[i := Finished]> (tasks st)),
               [reply port requestId response])
          | Client.Reports message =>
              (set_tasks st (<[i := AwaitReport port requestId]> (tasks st)),
               OfClient <$> Client.report message)
          end
      | None => (st, [])
      end
  | _ => (st, [])
  end.

(** The status send of task [i] has settled.  When it rejected,
    [getCompletions] rejects, and so does the listener before its
    [port.postMessage]. *)
Definition reportSettled (st : state) (i : nat) (sent : bool)
  : state * list effect :=
  match tasks st !! i with
  | Some (AwaitReport port requestId) =>
      (set_tasks st (<[i := Finished]> (tasks st)),
       match Client.getCompletions_reported sent with
       | Client.Returned response => [reply port requestId response]
       | Client.Thrown => []
       end)
  | _ => (st, [])
  end.

(** The upstream [acceptCompletion] of task [i] has settled. *)
Definition acceptSettled (st : state) (i : nat) (failure : option string)
  : state * list effect :=
  match tasks st !! i with
  | Some AwaitAccept =>
      (set_tasks st (<[i := Finished]> (tasks st)),
       OfClient <$> Client.acceptedLastCompletion_settled failure)
  | _ => (st, [])
  end.

Inductive event :=
  | OnInstalled (user : option User.t) (uuid : string)
                (generalPortalUrl : option string) (runtimeId : string)
  | OnMessageExternal (m : ExternalMessage) (user : option User.t)
  | OnStartup (user : option User.t)
  | OnMessage (m : InternalMessage)
  | OnConnectExternal (port : Port)
  | OnDisconnect (port : Port)
  | OnPortMessage (m : LanguageServerWorkerRequest) (port : Port)
  | ClientResolved (i : nat)
  | CompletionsSettled (i : nat) (o : Client.outcome Response)
  | AcceptSettled (i : nat) (failure : option string)
  | ClientRejected (i : nat) (message : string)
  | ReportSettled (i : nat) (sent : bool).

Definition step (st : state) (e : event) : state * list effect :=
  match e with
  | OnInstalled user uuid portal rid => onInstalled st user uuid portal rid
  | OnMessageExternal m user => onMessageExternal st m user
  | OnStartup user => onStartup st user
  | OnMessage m => onMessage st m
  | OnConnectExternal port => (onConnectExternal st port, [])
  | OnDisconnect port => (onDisconnect st port, [])
  | OnPortMessage m port => onPortMessage st m port
  | ClientResolved i => clientResolved st i
  | CompletionsSettled i o => completionsSettled st i o
  | AcceptSettled i failure => acceptSettled st i failure
  | ClientRejected i message => clientRejected st i message
  | ReportSettled i sent => reportSettled st i sent
  end.

Fixpoint run (st : state) (es : list event) : state * list effect :=
  match es with
  | [] => (st, [])
  | e :: es' =>
      let '(st', eff) := step st e in
      let '(st'', eff') := run st' es' in
      (st'', eff ++ eff')
  end.

(** *** The browser's side: which ports are open

    [onConnectExternal] is called with a new port object; [onDisconnect]
    and [onMessage] of a port fire only while it is open. *)
Definition chrome (open : list Port) (e : event) : list Port :=
  match e with
  | OnConnectExternal port => open ++ [port]
  | OnDisconnect port => filter (λ p, p ≠ port) open
  | _ => open
  end.

Definition admissible (open : list Port) (e : event) : bool :=
  match e with
  | OnConnectExternal port => bool_decide (port ∉ open)
  | OnDisconnect port => bool_decide (port ∈ open)
  | OnPortMessage _ port => bool_decide (port ∈ open)
  | _ => true
  end.

(** The foreground client opens a channel for its session only when the
    previous one is gone: no open port has the name of a new one. *)
Definition exclusive (open : list Port) (e : event) : bool :=
  match e with
  | OnConnectExternal port => bool_decide (name port ∉ name <$> open)
  | _ => true
  end.

(** The script and the browser together. *)
Fixpoint admissible_run (open : list Port) (es : list event) : bool :=
  match es with
  | [] => true
  | e :: es' => admissible open e && admissible_run (chrome open e) es'
  end.

Fixpoint exclusive_run (open : list Port) (es : list event) : bool :=
  match es with
  | [] => true
  | e :: es' => exclusive open e && exclusive_run (chrome open e) es'
  end.

Definition open_after (es : list event) : list Port := foldl chrome [] es.

(** The suspended completion calls of a session whose own cancellation
    token has not fired. *)
Definition unfired (st : state) (session : string) (t : task) : bool :=
  match t with
  | AwaitClient port _ c _ signal | AwaitCompletions port _ c signal =>
      bool_decide (name port = session)
      && match clients st !! c with
         | Some this => negb (Client.aborted this signal)
         | None => false
         end
  | _ => false
  end.

Definition unfired_calls (st : state) (session : string) : list task :=
  filter (λ t, unfired st session t = true) (tasks st).

(** The frames an effect list posts on the ports. *)
Definition replies (eff : list effect)
  : list (Port * LanguageServerWorkerResponse) :=
  omap (λ e, match e with PostMessage p r => Some (p, r) | _ => None end) eff.

(** The tokens that [login] is called with. *)
Definition exchanges (eff : list effect) : list string :=
  omap (λ e, match e with Login tok => Some tok | _ => None end) eff.

(** A message of one of the four handled types: [type] is ['user'] or
    ['allowlist'], or loosely equals ['error'] or ['success']. *)
Definition handled (m : ExternalMessage) : bool :=
  bool_decide (type m = JString "user")
  || bool_decide (type m = JString "allowlist")
  || loosely (type m) "error" || loosely (type m) "success".

(** A message that reaches the auth part of [onMessageExternal]: none
    of the four handled types, and both fields strings. *)
Definition confirms (m : ExternalMessage) : option (string * string) :=
  if handled m then None
  else match token m, state_ m with
       | JString tok, JString s => Some (tok, s)
       | _, _ => None
       end.

(** How often [s] occurs in [authStates]. *)
Definition outstanding (st : state) (s : string) : nat :=
  length (filter (λ x, x = s) (authStates st)).

(** Event [e] pushes [s] onto [authStates]. *)
Definition registers (s : string) (e : event) : bool :=
  match e with
  | OnInstalled user uuid _ _ => no_apiKey user && bool_decide (uuid = s)
  | OnMessage (StateMessage s') => bool_decide (s' = s)
  | _ => false
  end.

(** Event [e], in state [st], is a confirmation bearing [s] that leads
    to an exchange. *)
Definition consumes (s : string) (st : state) (e : event) : bool :=
  match e with
  | OnMessageExternal m _ =>
      match confirms m with
      | Some (_, s') =>
          bool_decide (s' = s)
          && bool_decide (exchanges (snd (step st e)) ≠ [])
      | None => false
      end
  | _ => false
  end.

Fixpoint registrations (s : string) (es : list event) : nat :=
  match es with
  | [] => 0
  | e :: es' => (if registers s e then 1 else 0) + registrations s es'
  end.

Fixpoint consumptions (s : string) (st : state) (es : list event) : nat :=
  match es with
  | [] => 0
  | e :: es' =>
      (if consumes s st e then 1 else 0)
      + consumptions s (fst (step st e)) es'
  end.

(** All controllers a client has made are aborted, except the one its
    field [abortController] holds, which is the last one. *)
Definition single_flight (this : Client.state) : Prop :=
  match Client.abortController this with
  | None => Client.controllers this = []
  | Some c => Client.controllers this = replicate c true ++ [false]
  end.

(** Every entry of [clientMap] belongs to an open port of that name and
    holds a client of that session. *)
Definition registry_sound (st : state) (open : list Port) : Prop :=
  ∀ s c, clientMap st !! s = Some c →
         (∃ p, p ∈ open ∧ name p = s)
         ∧ ∃ this, clients st !! c = Some this ∧ Client.sessionId this = s.

(** Open ports have different names, and each has an entry. *)
Definition registry_complete (st : state) (open : list Port) : Prop :=
  NoDup (name <$> open)
  ∧ ∀ p, p ∈ open → is_Some (clientMap st !! name p).

(** Event [e] resumes task [i]. *)
Definition resumes (i : nat) (e : event) : bool :=
  match e with
  | ClientResolved j | CompletionsSettled j _ | AcceptSettled j _
  | ClientRejected j _ | ReportSettled j _ =>
      bool_decide (i = j)
  | _ => false
  end.

End listeners.

Arguments event : clear implicits.

End ServiceWorker.

(** ** A concrete codec and concrete values, for the examples *)
Module Sample.

(** Responses are their own JSON text; the empty text is no message. *)
Definition response_json : ProtoJson string :=
  {| toJsonString := λ s, s;
     fromJsonString := λ s, if decide (s = "") then None else Some s |}.

(** A request travels as its body alone; the empty text is no message. *)
Definition request_json : ProtoJson GetCompletionsRequest.t :=
  {| toJsonString := GetCompletionsRequest.body;
     fromJsonString := λ s,
       if decide (s = "") then None
       else Some {| GetCompletionsRequest.metadata := None;
                    GetCompletionsRequest.body := s |} |}.

Definition accept_json : ProtoJson AcceptCompletionRequest.t :=
  {| toJsonString := AcceptCompletionRequest.completionId;
     fromJsonString := λ s,
       if decide (s = "") then None
       else Some {| AcceptCompletionRequest.metadata := None;
                    AcceptCompletionRequest.completionId := s |} |}.

Definition browser : Browser.t :=
  {| Browser.language := "en-US"; Browser.userAgent := "Chrome";
     Browser.href := "https://example.com/" |}.

Definition ide : IdeInfo.t :=
  {| IdeInfo.ideName := "monaco"; IdeInfo.ideVersion := "1" |}.

Definition user (k : option string) : User.t :=
  {| User.apiKey := k; User.name := Some "ada"; User.userPortalUrl := None |}.

Definition worker (sid : string) : LanguageServerServiceWorkerClient.state :=
  LanguageServerServiceWorkerClient.constructor sid.

Definition fresh_client : LanguageServerClient.state :=
  fst (LanguageServerClient.constructor (Response := string) "s1").

Definition first_metadata : Metadata.t :=
  snd (LanguageServerClient.getMetadata fresh_client browser ide "key").

(** A page builds a request by hand from [getMetadata], gets its answer,
    asks again and accepts a completion. *)
Definition typing : list LanguageServerClient.event :=
  [LanguageServerClient.GetMetadata browser ide "key";
   LanguageServerClient.GetCompletions
     {| GetCompletionsRequest.metadata := Some first_metadata;
        GetCompletionsRequest.body := "fn ma" |};
   LanguageServerClient.Message 0
     (GetCompletionsResponseMessage (Num 1) (Some "[]"));
   LanguageServerClient.Completions browser ide "key" "fn mai";
   LanguageServerClient.AcceptedLastCompletion browser ide "key" "c7"].

Definition confirmation (tok s : string) : ServiceWorker.ExternalMessage :=
  {| ServiceWorker.type := ServiceWorker.JUndefined;
     ServiceWorker.token := ServiceWorker.JString tok;
     ServiceWorker.state_ := ServiceWorker.JString s;
     ServiceWorker.message := ServiceWorker.JUndefined |}.

(** The state ["st-1"] is registered twice and confirmed twice. *)
Definition replay : list (ServiceWorker.event string) :=
  [ServiceWorker.OnMessage (ServiceWorker.StateMessage "st-1");
   ServiceWorker.OnMessage (ServiceWorker.StateMessage "st-1");
   ServiceWorker.OnMessageExternal (confirmation "tok-a" "st-1") None;
   ServiceWorker.OnMessageExternal (confirmation "tok-a" "st-1") None].

Definition port (n : nat) (session : string) : ServiceWorker.Port :=
  {| ServiceWorker.id := n; ServiceWorker.name := session |}.

(** Session ["s1"] asks for completions, its channel goes down while the
    upstream call is out, it connects again and asks again. *)
Definition reconnect : list (ServiceWorker.event string) :=
  [ServiceWorker.OnConnectExternal (port 0 "s1");
   ServiceWorker.OnPortMessage
     (GetCompletionsRequestMessage (Num 1) "fn ma") (port 0 "s1");
   ServiceWorker.ClientResolved 0;
   ServiceWorker.OnDisconnect (port 0 "s1");
   ServiceWorker.OnConnectExternal (port 1 "s1");
   ServiceWorker.OnPortMessage
     (GetCompletionsRequestMessage (Num 2) "fn mai") (port 1 "s1");
   ServiceWorker.ClientResolved 1].

(** The service worker with one open port, of session ["s1"]. *)
Definition one_session : ServiceWorker.state :=
  ServiceWorker.onConnectExternal ServiceWorker.initial (port 0 "s1").

(** While the first request of ["s1"] waits for its client another
    session connects; while it waits for the upstream answer, ["s1"]
    sends a newer request. *)
Definition meanwhile_connect : list (ServiceWorker.event string) :=
  [ServiceWorker.OnConnectExternal (port 1 "s2")].

Definition meanwhile_newer : list (ServiceWorker.event string) :=
  [ServiceWorker.OnPortMessage
     (GetCompletionsRequestMessage (Num 2) "fn mai") (port 0 "s1")].

(** The stages of the first request of ["s1"], with those events in
    between: the frame is in, the upstream call is out, the newer request
    has arrived, the first call has failed and is answered. *)
Definition accepted_first : ServiceWorker.state :=
  fst (ServiceWorker.onPortMessage
         (QJ := request_json) (AJ := accept_json) one_session
         (GetCompletionsRequestMessage (Num 1) "fn ma") (port 0 "s1")).

Definition first_called : ServiceWorker.state :=
  fst (ServiceWorker.clientResolved
         (fst (ServiceWorker.run
                 (RJ := response_json) (QJ := request_json) (AJ := accept_json)
                 accepted_first meanwhile_connect)) 0).

Definition newer_arrived : ServiceWorker.state :=
  fst (ServiceWorker.run
         (RJ := response_json) (QJ := request_json) (AJ := accept_json)
         first_called meanwhile_newer).

Definition newer_answered : ServiceWorker.state :=
  fst (ServiceWorker.completionsSettled
         (RJ := response_json) newer_arrived 0
         (LanguageServerServiceWorkerClient.Rejected
            (LanguageServerServiceWorkerClient.Error "aborted"))).

(** The upstream call of a request fails, and so does the send that is to
    report it. *)
Definition report_fails : list (ServiceWorker.event string) :=
  [ServiceWorker.OnConnectExternal (port 0 "s1");
   ServiceWorker.OnPortMessage
     (GetCompletionsRequestMessage (Num 1) "fn ma") (port 0 "s1");
   ServiceWorker.ClientResolved 0;
   ServiceWorker.CompletionsSettled 0
     (LanguageServerServiceWorkerClient.Rejected
        (LanguageServerServiceWorkerClient.Error "Failed to fetch"));
   ServiceWorker.ReportSettled 0 false].

(** Two ports are opened under one name, then the first one is closed. *)
Definition two_channels : list (ServiceWorker.event string) :=
  [ServiceWorker.OnConnectExternal (port 0 "s1");
   ServiceWorker.OnConnectExternal (port 1 "s1");
   ServiceWorker.OnDisconnect (port 0 "s1")].

(** Two sessions come, one asks for completions, the other one leaves. *)
Definition two_sessions : list (ServiceWorker.event string) :=
  [ServiceWorker.OnConnectExternal (port 0 "s1");
   ServiceWorker.OnConnectExternal (port 1 "s2");
   ServiceWorker.OnPortMessage
     (GetCompletionsRequestMessage (Num 1) "fn ma") (port 0 "s1");
   ServiceWorker.OnDisconnect (port 1 "s2")].

(** A page asks for completions and loses its channel before the answer. *)
Definition cut_off : list LanguageServerClient.event :=
  [LanguageServerClient.Completions browser ide "key" "fn ma";
   LanguageServerClient.Disconnected].

(** The client after [cut_off]. *)
Definition cut_off_client : LanguageServerClient.state :=
  fst (LanguageServerClient.run
         (RJ := response_json) (QJ := request_json) (AJ := accept_json)
         fresh_client cut_off).

(** The request a page builds from the first [getMetadata]. *)
Definition first_request : GetCompletionsRequest.t :=
  {| GetCompletionsRequest.metadata := Some first_metadata;
     GetCompletionsRequest.body := "fn ma" |}.

(** The client of the page after its first [getMetadata]. *)
Definition metadata_taken : LanguageServerClient.state :=
  fst (LanguageServerClient.getMetadata fresh_client browser ide "key").

(** A page asks for completions. *)
Definition asked : list LanguageServerClient.event :=
  [LanguageServerClient.GetMetadata browser ide "key";
   LanguageServerClient.GetCompletions first_request].

Definition asked_client : LanguageServerClient.state :=
  fst (LanguageServerClient.run
         (RJ := response_json) (QJ := request_json) (AJ := accept_json)
         fresh_client asked).

(** ... and sends the same request once more before the answer is there. *)
Definition asked_twice : list LanguageServerClient.event :=
  asked ++ [LanguageServerClient.GetCompletions first_request].

Definition asked_twice_client : LanguageServerClient.state :=
  fst (LanguageServerClient.run
         (RJ := response_json) (QJ := request_json) (AJ := accept_json)
         fresh_client asked_twice).

(** A page hands [getCompletions] a request whose id the counter has not
    reached. *)
Definition ahead_client : LanguageServerClient.state :=
  fst (LanguageServerClient.run
         (RJ := response_json) (QJ := request_json) (AJ := accept_json)
         fresh_client [LanguageServerClient.GetCompletions first_request]).

(** The service worker with one client that has one call under way. *)
Definition first_call : list (ServiceWorker.event string) :=
  [ServiceWorker.OnConnectExternal (port 0 "s1");
   ServiceWorker.OnPortMessage
     (GetCompletionsRequestMessage (Num 1) "fn ma") (port 0 "s1")].

Definition calling : LanguageServerServiceWorkerClient.state :=
  {| LanguageServerServiceWorkerClient.sessionId := "s1";
     LanguageServerServiceWorkerClient.controllers := [false];
     LanguageServerServiceWorkerClient.abortController := Some 0 |}.

End Sample.

(** ** The rest of the service worker script: [login] and the server URL *)
Module Login.

(** What [registerUser] of [./auth] resolves with, as far as [login] reads
    it. *)
Record RegisteredUser := { api_key : string; name : string }.

Inductive effect :=
  | RegisterUser (token : string) (portalUrl : option string)
  (** [setStorageItem('user', user)] *)
  | SetStorageItemUser (user : User.t)
  | LoggedIn
  | ConsoleLog (error : string).

(** [login(token)]: [portalUrl] is what [getGeneralPortalUrl()] resolved
    with, [registration] what [registerUser] did, [inr] for what it threw. *)
Definition login (token : string) (portalUrl : option string)
    (registration : RegisteredUser + string) : list effect :=
  RegisterUser token portalUrl ::
  match registration with
  | inl user =>
      [SetStorageItemUser {| User.apiKey := Some (api_key user);
                             User.name := Some (name user);
                             User.userPortalUrl := portalUrl |};
       LoggedIn]
  | inr error => [ConsoleLog error]
  end.

(** What an effect list wrote to storage under ['user']. *)
Definition stored (eff : list effect) : list User.t :=
  omap (λ e, match e with SetStorageItemUser u => Some u | _ => None end) eff.

End Login.

(** [getLanguageServerUrl()], [user] being what storage holds. *)
Definition getLanguageServerUrl (user : option User.t) : string :=
  match user ≫= User.userPortalUrl with
  | None => "https://server.codeium.com"
  | Some userPortalUrl =>
      if decide (userPortalUrl = "") then "https://server.codeium.com"
      else userPortalUrl +:+ "/_route/language_server"
  end.

(** The last character of a string. *)
Fixpoint last_char (s : string) : option Ascii.ascii :=
  match s with
  | EmptyString => None
  | String c EmptyString => Some c
  | String _ s' => last_char s'
  end.

(** ** Observations on runs *)

(** The response of the last completed tick of a poller run, and what the
    promise of the constructor resolved with. *)
Definition last_tick (es : list ApiKeyPoller.event) : option (option User.t) :=
  foldl (λ acc e, match e with ApiKeyPoller.Tick r => Some r | _ => acc end)
        None es.

Definition first_initial (es : list ApiKeyPoller.event)
  : option (option User.t) :=
  foldl (λ acc e, match acc, e with
                  | None, ApiKeyPoller.InitialResolved r => Some r
                  | _, _ => acc
                  end) None es.

Section observations.
Context {Response : Type}.

(** The effects of a foreground client are well addressed: every port is
    opened under [name] and numbered one after the port before, and every
    frame is posted on the port opened last ([cur]). *)
Fixpoint well_addressed (name : string) (cur : nat)
    (eff : list (LanguageServerClient.effect Response)) : Prop :=
  match eff with
  | [] => True
  | LanguageServerClient.Connect p n :: eff' =>
      n = name ∧ p = S cur ∧ well_addressed name p eff'
  | LanguageServerClient.PostMessage p _ :: eff' =>
      p = cur ∧ well_addressed name cur eff'
  | LanguageServerClient.Resolve _ _ :: eff' => well_addressed name cur eff'
  end.

(** The port opened last by an effect list, [cur] if it opens none. *)
Definition last_port (cur : nat)
    (eff : list (LanguageServerClient.effect Response)) : nat :=
  foldl (λ acc e, match e with
                  | LanguageServerClient.Connect p _ => p
                  | _ => acc
                  end) cur eff.

(** A [getCompletions] frame reaches the port listener. *)
Definition completion_frame (e : ServiceWorker.event Response) : bool :=
  match e with
  | ServiceWorker.OnPortMessage (GetCompletionsRequestMessage _ _) _ => true
  | _ => false
  end.
End observations.

(** A listener invocation that still owes the reply to a [getCompletions]
    frame. *)
Definition owes_reply (t : ServiceWorker.task) : bool :=
  match t with
  | ServiceWorker.AwaitClient _ _ _ _ _
  | ServiceWorker.AwaitCompletions _ _ _ _
  | ServiceWorker.AwaitReport _ _ => true
  | _ => false
  end.

Section accounting.
Context {Response : Type} {RJ : ProtoJson Response}
        {QJ : ProtoJson GetCompletionsRequest.t}
        {AJ : ProtoJson AcceptCompletionRequest.t}.

(** Event [e], in state [st], ends the listener invocation of a
    [getCompletions] frame without a reply: the request of the frame does
    not decode, or [this.client] or the status send rejects. *)
Definition drops (st : ServiceWorker.state) (e : ServiceWorker.event Response)
  : bool :=
  match e with
  | ServiceWorker.OnPortMessage (GetCompletionsRequestMessage _ request) port =>
      match ServiceWorker.client_of st port,
            fromJsonString (M := GetCompletionsRequest.t) request with
      | Some _, None => true
      | _, _ => false
      end
  | ServiceWorker.ClientRejected i _ =>
      match ServiceWorker.tasks st !! i with
      | Some (ServiceWorker.AwaitClient _ _ _ _ _) => true
      | _ => false
      end
  | ServiceWorker.ReportSettled i false =>
      match ServiceWorker.tasks st !! i with
      | Some (ServiceWorker.AwaitReport _ _) => true
      | _ => false
      end
  | _ => false
  end.

(** How many events of a run end an invocation without a reply. *)
Fixpoint dropped (st : ServiceWorker.state)
    (es : list (ServiceWorker.event Response)) : nat :=
  match es with
  | [] => 0
  | e :: es' =>
      (if drops st e then 1 else 0)
      + dropped (fst (ServiceWorker.step st e)) es'
  end.
End accounting.

(** The client and the signal of a suspended completion call exist. *)
Definition task_valid (st : ServiceWorker.state) (t : ServiceWorker.task)
  : Prop :=
  match t with
  | ServiceWorker.AwaitClient _ _ c _ signal
  | ServiceWorker.AwaitCompletions _ _ c signal =>
      ∃ this, ServiceWorker.clients st !! c = Some this
              ∧ signal < length (LanguageServerServiceWorkerClient.controllers this)
  | _ => True
  end.

(** The client and the signal of a suspended completion call. *)
Definition call_of (t : ServiceWorker.task) : option (nat * nat) :=
  match t with
  | ServiceWorker.AwaitClient _ _ c _ signal
  | ServiceWorker.AwaitCompletions _ _ c signal => Some (c, signal)
  | _ => None
  end.

(** A suspended completion call runs on a client of the session that its
    port names. *)
Definition task_of_session (st : ServiceWorker.state) (t : ServiceWorker.task)
  : Prop :=
  match t with
  | ServiceWorker.AwaitClient port _ c _ _
  | ServiceWorker.AwaitCompletions port _ c _ =>
      ∃ this, ServiceWorker.clients st !! c = Some this
              ∧ LanguageServerServiceWorkerClient.sessionId this
                = ServiceWorker.name port
  | _ => True
  end.

(** Every name in the registry leads to a client of that session. *)
Definition registry_of_sessions (st : ServiceWorker.state) : Prop :=
  ∀ s c, ServiceWorker.clientMap st !! s = Some c →
         ∃ this, ServiceWorker.clients st !! c = Some this
                 ∧ LanguageServerServiceWorkerClient.sessionId this = s.

Section connections.
Context {Response : Type}.

(** A port of the name [s] connects. *)
Definition connects (s : string) (e : ServiceWorker.event Response) : bool :=
  match e with
  | ServiceWorker.OnConnectExternal port =>
      bool_decide (ServiceWorker.name port = s)
  | _ => false
  end.
End connections.

(** ** Concrete runs for the further examples *)
Module Scenario.

(** One session connects and sends two requests; the first upstream call is
    out when the second request arrives. *)
Definition superseded : list (ServiceWorker.event string) :=
  [ServiceWorker.OnConnectExternal (Sample.port 0 "s1");
   ServiceWorker.OnPortMessage
     (GetCompletionsRequestMessage (Num 1) "fn ma") (Sample.port 0 "s1");
   ServiceWorker.ClientResolved 0;
   ServiceWorker.OnPortMessage
     (GetCompletionsRequestMessage (Num 2) "fn mai") (Sample.port 0 "s1")].

Definition superseded_state : ServiceWorker.state :=
  fst (ServiceWorker.run
         (RJ := Sample.response_json) (QJ := Sample.request_json)
         (AJ := Sample.accept_json) ServiceWorker.initial superseded).

(** Two sessions, each with its own port. *)
Definition two_open : list (ServiceWorker.event string) :=
  [ServiceWorker.OnConnectExternal (Sample.port 0 "s1");
   ServiceWorker.OnConnectExternal (Sample.port 1 "s2")].

Definition two_open_state : ServiceWorker.state :=
  fst (ServiceWorker.run
         (RJ := Sample.response_json) (QJ := Sample.request_json)
         (AJ := Sample.accept_json) ServiceWorker.initial two_open).

(** The client of ["s1"] after [superseded]: two controllers, the first
    one aborted. *)
Definition superseded_client : LanguageServerServiceWorkerClient.state :=
  {| LanguageServerServiceWorkerClient.sessionId := "s1";
     LanguageServerServiceWorkerClient.controllers := [true; false];
     LanguageServerServiceWorkerClient.abortController := Some 1 |}.

(** The request that [Sample.request_json] makes of the text ["fn ma"]. *)
Definition bare_request : GetCompletionsRequest.t :=
  {| GetCompletionsRequest.metadata := None;
     GetCompletionsRequest.body := "fn ma" |}.

(** The service worker when the upstream [acceptCompletion] of the frame
    ["c7"] is out. *)
Definition accepting : ServiceWorker.state :=
  fst (ServiceWorker.clientResolved
         (fst (ServiceWorker.run
                 (RJ := Sample.response_json) (QJ := Sample.request_json)
                 (AJ := Sample.accept_json)
                 (fst (ServiceWorker.onPortMessage
                         (QJ := Sample.request_json)
                         (AJ := Sample.accept_json) Sample.one_session
                         (AcceptCompletionRequestMessage "c7")
                         (Sample.port 0 "s1")))
                 Sample.meanwhile_connect)) 0).

End Scenario.

(** * Properties *)

(** ** Headers *)
Section headers.
Import LanguageServerServiceWorkerClient.

Lemma string_app_inj_l (p a b : string) : p +:+ a = p +:+ b → a = b.
Proof.
  induction p as [|c p IH]; simpl; [done|].
  intros H. apply IH. by injection H.
Qed.

Lemma getHeaders_lookup (this : state) (k : string) :
  getHeaders this (Some k) !! "Authorization"
  = Some ("Basic " +:+ k +:+ "-" +:+ sessionId this).
Proof. unfold getHeaders. by rewrite lookup_singleton_eq. Qed.

(** C9. With a defined credential [k], the headers of a client of session
    [s] are exactly the one entry [Authorization: Basic k-s]; and two
    clients of different sessions get different headers from the same
    credential. *)
Theorem getHeaders_authorization (k : string) (this other : state) :
  getHeaders this (Some k)
  = {[ "Authorization" := "Basic " +:+ k +:+ "-" +:+ sessionId this ]}
  ∧ (sessionId this ≠ sessionId other →
     getHeaders this (Some k) ≠ getHeaders other (Some k)).
Proof.
  split; [done|].
  intros Hne Heq. apply Hne.
  assert (getHeaders this (Some k) !! "Authorization"
          = getHeaders other (Some k) !! "Authorization") as H
    by by rewrite Heq.
  rewrite !getHeaders_lookup in H.
  apply (inj Some), (string_app_inj_l "Basic "), (string_app_inj_l k) in H.
  by apply (string_app_inj_l "-") in H.
Qed.

Lemma getHeaders_authorization_witness :
  getHeaders (Sample.worker "s1") (Some "key")
  = {[ "Authorization" := "Basic key-s1" ]}
  ∧ getHeaders (Sample.worker "s1") (Some "key")
    ≠ getHeaders (Sample.worker "s2") (Some "key").
Proof.
  destruct (getHeaders_authorization "key" (Sample.worker "s1")
              (Sample.worker "s2")) as [H1 H2].
  split; [exact H1|]. apply H2. simpl. discriminate.
Defined.

(** C10. Without a credential the headers are the empty map, and both
    upstream calls still go out, with that empty map as their headers. *)
Theorem getHeaders_undefined (this : state)
    (request : GetCompletionsRequest.t) (signal : nat)
    (accept : AcceptCompletionRequest.t) :
  getHeaders this None = ∅
  ∧ (Metadata.apiKey <$> GetCompletionsRequest.metadata request = None →
     getCompletions_call this request signal
     = CallGetCompletions request signal ∅)
  ∧ (Metadata.apiKey <$> AcceptCompletionRequest.metadata accept = None →
     acceptedLastCompletion_call this accept
     = CallAcceptCompletion accept ∅).
Proof.
  split; [done|].
  unfold getCompletions_call, acceptedLastCompletion_call.
  split; intros ->; done.
Qed.

Lemma getHeaders_undefined_witness :
  getCompletions_call (Sample.worker "s1")
    {| GetCompletionsRequest.metadata := None;
       GetCompletionsRequest.body := "fn ma" |} 0
  = CallGetCompletions
      {| GetCompletionsRequest.metadata := None;
         GetCompletionsRequest.body := "fn ma" |} 0 ∅
  ∧ acceptedLastCompletion_call (Sample.worker "s1")
      {| AcceptCompletionRequest.metadata := None;
         AcceptCompletionRequest.completionId := "c7" |}
    = CallAcceptCompletion
        {| AcceptCompletionRequest.metadata := None;
           AcceptCompletionRequest.completionId := "c7" |} ∅.
Proof.
  pose proof (getHeaders_undefined (Sample.worker "s1")
    {| GetCompletionsRequest.metadata := None;
       GetCompletionsRequest.body := "fn ma" |} 0
    {| AcceptCompletionRequest.metadata := None;
       AcceptCompletionRequest.completionId := "c7" |}) as (_ & H1 & H2).
  split; [apply H1 | apply H2]; reflexivity.
Defined.
End headers.

(** ** The credential poller *)
Section poller.
Import ApiKeyPoller.

(** C2, as the specification has it, fails: a poller that holds the
    credential ["key"] loses it on a tick whose fetch brings nothing. *)
Lemma tick_undefined_overwrites :
  apiKey (tick {| apiKey := Plain (Some "key") |} None)
  ≠ apiKey {| apiKey := Plain (Some "key") |}
  ∧ apiKey (run [Tick (Some (Sample.user (Some "key"))); Tick None])
    = Plain None.
Proof. split; [discriminate | reflexivity]. Qed.

(** C2, amended.  A tick stores whatever its fetch brought: when the
    source returns nothing (no answer, or a user without [apiKey]) the
    field becomes the plain value [undefined], whatever it held before;
    the step is total, the callback has nothing that could throw. *)
Theorem tick_stores_fetch (p : state) (response : option User.t) :
  apiKey (tick p response) = Plain (getApiKey response)
  ∧ (getApiKey response = None → apiKey (tick p response) = Plain None).
Proof. split; [done|]. intros H. unfold tick. simpl. by rewrite H. Qed.

Lemma tick_stores_fetch_witness :
  getApiKey (Some (Sample.user None)) = None
  ∧ apiKey (tick {| apiKey := Plain (Some "key") |}
              (Some (Sample.user None))) = Plain None.
Proof.
  split; [reflexivity|].
  apply (tick_stores_fetch {| apiKey := Plain (Some "key") |}
           (Some (Sample.user None))).
  reflexivity.
Defined.
End poller.

(** ** Failures of the upstream completion call *)
Section failures.
Import LanguageServerServiceWorkerClient.
Context {Response : Type}.

(** C4, as the specification has it, fails: a [ConnectError] with code
    [Canceled] on a call whose own token has not fired is a failure for
    another reason, and nothing is reported. *)
Lemma canceled_code_not_reported :
  aborted {| sessionId := "s1"; controllers := [true; false];
             abortController := Some 1 |} 1 = false
  ∧ reported (effects_of
                (getCompletions_settled (Response := string)
                   {| sessionId := "s1"; controllers := [true; false];
                      abortController := Some 1 |} 1
                   (Rejected (ConnectError Code_Canceled "stream reset"))))
    = [].
Proof. split; reflexivity. Qed.

(** C4, amended.  A failed call reports nothing and returns without a
    result when its own token has fired, and also when the failure is a
    [ConnectError] with code [Canceled].  In every other case the message
    is logged and sent to the process-status interface, once, and the call
    waits for that send: when the send resolves the call returns without a
    result; when the send rejects, the call rejects. *)
Theorem getCompletions_failure (this : state) (signal : nat) (err : error) :
  let progress :=
    getCompletions_settled (Response := Response) this signal (Rejected err) in
  (aborted this signal = true → progress = Returns None)
  ∧ (aborted this signal = false →
     match err with
     | ConnectError code message =>
         (code = Code_Canceled → progress = Returns None)
         ∧ (code ≠ Code_Canceled → progress = Reports message)
     | Error message => progress = Reports message
     end)
  ∧ (∀ result, progress = Returns result →
       result = None ∧ effects_of progress = [])
  ∧ (∀ message, progress = Reports message →
       aborted this signal = false
       ∧ effects_of progress = [ConsoleLog message; SendErrorMessage message]
       ∧ reported (effects_of progress) = [message]
       ∧ getCompletions_reported (Response := Response) true = Returned None
       ∧ getCompletions_reported (Response := Response) false = Thrown).
Proof.
  intros progress. subst progress. unfold getCompletions_settled.
  destruct (aborted this signal) eqn:Ha.
  - split; [done|]. split; [done|]. split.
    + by intros result [= <-].
    + intros message [=].
  - split; [done|].
    destruct err as [code message|message].
    + case_decide as Hc.
      * split; [split; [done | by intros _]|]. split; [intros result [=]|].
        by intros m [= <-].
      * split; [split; [by intros _ | by intros Hne]|]. split.
        -- by intros result [= <-].
        -- intros m [=].
    + split; [done|]. split; [intros result [=]|].
      by intros m [= <-].
Qed.
End failures.

Lemma getCompletions_failure_witness :
  LanguageServerServiceWorkerClient.getCompletions_settled (Response := string)
    (Sample.worker "s1") 0
    (LanguageServerServiceWorkerClient.Rejected
       (LanguageServerServiceWorkerClient.Error "Failed to fetch"))
  = LanguageServerServiceWorkerClient.Reports "Failed to fetch"
  ∧ LanguageServerServiceWorkerClient.effects_of
      (LanguageServerServiceWorkerClient.getCompletions_settled
         (Response := string) (Sample.worker "s1") 0
         (LanguageServerServiceWorkerClient.Rejected
            (LanguageServerServiceWorkerClient.Error "Failed to fetch")))
    = [LanguageServerServiceWorkerClient.ConsoleLog "Failed to fetch";
       LanguageServerServiceWorkerClient.SendErrorMessage "Failed to fetch"].
Proof.
  pose proof (getCompletions_failure (Response := string) (Sample.worker "s1") 0
                (LanguageServerServiceWorkerClient.Error "Failed to fetch"))
    as (_ & H & _ & Hrep).
  assert (LanguageServerServiceWorkerClient.getCompletions_settled
            (Response := string) (Sample.worker "s1") 0
            (LanguageServerServiceWorkerClient.Rejected
               (LanguageServerServiceWorkerClient.Error "Failed to fetch"))
          = LanguageServerServiceWorkerClient.Reports "Failed to fetch") as Heq
    by (apply H; reflexivity).
  split; [exact Heq|].
  exact (proj1 (proj2 (Hrep _ Heq))).
Defined.

(** ** The foreground client: pending requests and request ids *)
Section foreground.
Import LanguageServerClient.
Context {Response : Type} {RJ : ProtoJson Response}
        {QJ : ProtoJson GetCompletionsRequest.t}
        {AJ : ProtoJson AcceptCompletionRequest.t}.

Lemma bounded_weaken (m : gmap number nat) (a b : Z) :
  (a ≤ b)%Z →
  map_Forall (λ id _, ∃ z, id = Num z ∧ (z ≤ a)%Z) m →
  map_Forall (λ id _, ∃ z, id = Num z ∧ (z ≤ b)%Z) m.
Proof.
  intros Hab Hm. eapply map_Forall_impl; [exact Hm|].
  intros id _ (z & -> & Hz). exists z. split; [done | lia].
Qed.

Lemma step_bounded (this : state) (e : event) :
  bounded this → allocated_before this e →
  bounded (fst (step (Response := Response) this e)).
Proof.
  unfold bounded. intros Hb He.
  destruct e as [b i k|r|b i k body|b i k c| |pt m]; simpl.
  - eapply bounded_weaken; [|exact Hb]. lia.
  - destruct He as (z & Hz & Hle).
    apply map_Forall_insert_2; [|done]. rewrite Hz. exists z. split; [done|lia].
  - apply map_Forall_insert_2.
    + eexists. split; [reflexivity|]. simpl. lia.
    + eapply bounded_weaken; [|exact Hb]. simpl. lia.
  - eapply bounded_weaken; [|exact Hb]. lia.
  - done.
  - destruct m as [id response|kind]; [|done].
    try unfold onMessage; destruct (decode_response response) as [res|];
      simpl; [|done].
    by apply map_Forall_delete.
Qed.

Lemma step_requestId (this : state) (e : event) :
  (requestId this ≤ requestId (fst (step (Response := Response) this e)))%Z.
Proof.
  destruct e as [b i k|r|b i k body|b i k c| |pt [id response|kind]];
    simpl; try lia.
  try unfold onMessage; destruct (decode_response response) as [res|];
    simpl; lia.
Qed.

Lemma run_cons (this : state) (e : event) (es : list event) :
  fst (run (Response := Response) this (e :: es))
  = fst (run (Response := Response) (fst (step (Response := Response) this e)) es).
Proof.
  simpl. destruct (step this e) as [this' eff]. simpl.
  by destruct (run this' es).
Qed.

Lemma run_snd_cons (this : state) (e : event) (es : list event) :
  snd (run (Response := Response) this (e :: es))
  = snd (step (Response := Response) this e)
    ++ snd (run (Response := Response)
              (fst (step (Response := Response) this e)) es).
Proof.
  simpl. destruct (step this e) as [this' eff]. simpl.
  by destruct (run this' es).
Qed.

Lemma run_bounded (es : list event) (this : state) :
  bounded this → from_getMetadata (Response := Response) this es →
  bounded (fst (run (Response := Response) this es)).
Proof.
  revert this. induction es as [|e es IH]; intros this Hb Hes; [done|].
  destruct Hes as [He Hes]. rewrite run_cons. apply IH; [|done].
  by apply step_bounded.
Qed.

Lemma allocated_increasing (es : list event) (this : state) :
  Forall (λ z, requestId this < z)%Z (allocated (Response := Response) this es)
  ∧ StronglySorted Z.lt (allocated (Response := Response) this es).
Proof.
  revert this. induction es as [|e es IH]; intros this.
  { split; constructor. }
  destruct (IH (fst (step (Response := Response) this e))) as [Hlt Hs].
  pose proof (step_requestId this e) as Hmono.
  assert (Forall (λ z, requestId this < z)%Z
            (allocated (Response := Response)
               (fst (step (Response := Response) this e)) es)) as Hlt'.
  { eapply Forall_impl; [exact Hlt|]. simpl. intros. lia. }
  destruct e as [b i k|r|b i k body|b i k c| |pt m]; simpl in *;
    try (split; assumption).
  all: split; [constructor; [lia | assumption]
              | constructor; assumption].
Qed.

Lemma own_resolvers_constructor (uuid : string) :
  own_resolvers (fst (constructor (Response := Response) uuid)).
Proof.
  split; simpl; [apply map_Forall_empty|].
  intros ??? H. by rewrite lookup_empty in H.
Qed.

Lemma getCompletions_own_resolvers (this : state)
    (r : GetCompletionsRequest.t) :
  own_resolvers this →
  own_resolvers (fst (fst (getCompletions (Response := Response) this r))).
Proof.
  intros [Hlt Hinj]. split; simpl.
  - apply map_Forall_insert_2; [lia|].
    eapply map_Forall_impl; [exact Hlt|]. simpl. intros. lia.
  - intros id1 id2 p H1 H2.
    destruct (decide (requestId_of r = id1)) as [<-|N1];
      destruct (decide (requestId_of r = id2)) as [<-|N2]; [done|..].
    + rewrite lookup_insert_eq in H1. rewrite lookup_insert_ne in H2 by done.
      injection H1 as <-. apply Hlt in H2. simpl in H2. lia.
    + rewrite lookup_insert_eq in H2. rewrite lookup_insert_ne in H1 by done.
      injection H2 as <-. apply Hlt in H1. simpl in H1. lia.
    + rewrite lookup_insert_ne in H1 by done.
      rewrite lookup_insert_ne in H2 by done. by eapply Hinj.
Qed.

Lemma step_own_resolvers (this : state) (e : event) :
  own_resolvers this →
  own_resolvers (fst (step (Response := Response) this e)).
Proof.
  intros Hown.
  destruct e as [b i k|r|b i k body|b i k c| |pt m]; simpl; try done.
  - exact (getCompletions_own_resolvers this r Hown).
  - by apply (getCompletions_own_resolvers (fst (getMetadata this b i k)) _).
  - destruct m as [id response|kind]; [|done].
    try unfold onMessage; destruct (decode_response response) as [res|];
      simpl; [|done].
    destruct Hown as [Hlt Hinj]. split; simpl.
    + by apply map_Forall_delete.
    + intros id1 id2 p H1 H2.
      apply lookup_delete_Some in H1 as [_ H1].
      apply lookup_delete_Some in H2 as [_ H2]. by eapply Hinj.
Qed.

Lemma run_own_resolvers (es : list event) (this : state) :
  own_resolvers this →
  own_resolvers (fst (run (Response := Response) this es)).
Proof.
  revert this. induction es as [|e es IH]; intros this Hown; [done|].
  rewrite run_cons. by apply IH, step_own_resolvers.
Qed.

Local Ltac quiet_step :=
  split; [simpl; lia|];
  split; [intros ? ? ?; by left
         | intros ? Hp; by apply not_elem_of_nil in Hp].

Lemma step_resolved (this : state) (e : event) :
  own_resolvers this →
  (promises this ≤ promises (fst (step (Response := Response) this e)))%nat
  ∧ (∀ id q, promiseMap (fst (step (Response := Response) this e)) !! id
             = Some q →
             promiseMap this !! id = Some q ∨ (promises this ≤ q)%nat)
  ∧ (∀ p, p ∈ resolved (snd (step (Response := Response) this e)) →
          resolved (snd (step (Response := Response) this e)) = [p]
          ∧ (∃ id, promiseMap this !! id = Some p)
          ∧ ∀ id q, promiseMap (fst (step (Response := Response) this e)) !! id
                    = Some q → q ≠ p).
Proof.
  intros [Hlt Hinj].
  assert (∀ (m : gmap number nat) id n id' q,
            <[id := n]> m !! id' = Some q → m !! id' = Some q ∨ n = q) as Hins.
  { intros m id n id' q. destruct (decide (id = id')) as [->|Hne].
    - rewrite lookup_insert_eq. intros [= <-]. by right.
    - rewrite lookup_insert_ne by done. by left. }
  destruct e as [b i k|r|b i k body|b i k c| |pt m]; simpl.
  - quiet_step.
  - split; [lia|]. split.
    + intros id q Hq. apply Hins in Hq as [?|<-]; [by left|by right].
    + intros p Hp. by apply not_elem_of_nil in Hp.
  - split; [lia|]. split.
    + intros id q Hq. apply Hins in Hq as [?|<-]; [by left|by right].
    + intros p Hp. by apply not_elem_of_nil in Hp.
  - quiet_step.
  - quiet_step.
  - destruct m as [id response|kind]; [|simpl; quiet_step].
    try unfold onMessage; destruct (decode_response response) as [res|];
      [|quiet_step].
    simpl. split; [lia|]. split.
    + intros id' q Hq. apply lookup_delete_Some in Hq as [_ Hq]. by left.
    + destruct (promiseMap this !! id) as [p0|] eqn:Hp0; simpl;
        intros p Hp; [|by apply not_elem_of_nil in Hp].
      apply list_elem_of_singleton in Hp as ->.
      split; [done|]. split; [by exists id|].
      intros id' q Hq ->. apply lookup_delete_Some in Hq as [Hne Hq].
      apply Hne. by eapply Hinj.
Qed.

Lemma run_resolved (es : list event) (this : state) :
  own_resolvers this →
  NoDup (resolved (snd (run (Response := Response) this es)))
  ∧ ∀ p, p ∈ resolved (snd (run (Response := Response) this es)) →
         (∃ id, promiseMap this !! id = Some p) ∨ ((promises this ≤ p)%nat)%nat.
Proof.
  revert this. induction es as [|e es IH]; intros this Hown.
  { split; [constructor|]. intros p Hp. by apply not_elem_of_nil in Hp. }
  rewrite run_snd_cons. unfold resolved at 1 2. rewrite omap_app.
  fold (resolved (snd (step (Response := Response) this e))).
  fold (resolved (snd (run (Response := Response)
                         (fst (step (Response := Response) this e)) es))).
  destruct (step_resolved this e Hown) as (Hmono & Hmap & Hres).
  destruct (IH _ (step_own_resolvers this e Hown))
    as [Hnd Hcl].
  assert (∀ p, p ∈ resolved (snd (run (Response := Response)
                                     (fst (step (Response := Response) this e))
                                     es)) →
            ((∃ id, promiseMap this !! id = Some p) ∨ (promises this ≤ p)%nat)
            ∧ p ∉ resolved (snd (step (Response := Response) this e))) as Hlater.
  { intros p Hp. destruct (Hcl p Hp) as [[id Hid]|Hge].
    - split.
      + destruct (Hmap id p Hid) as [?|?]; [left; by exists id | by right].
      + intros Hin. destruct (Hres p Hin) as (_ & _ & Hne). by eapply Hne.
    - split; [right; lia|].
      intros Hin. destruct (Hres p Hin) as (_ & [id Hid] & _).
      destruct Hown as [Hlt _]. apply Hlt in Hid. simpl in Hid. lia. }
  split.
  - apply NoDup_app. split; [|split; [|done]].
    + destruct (resolved (snd (step (Response := Response) this e)))
        as [|p l] eqn:Hl; [constructor|].
      destruct (Hres p) as (Heq & _); [left|].
      injection Heq as ->. apply NoDup_singleton.
    + intros p Hp Hp'. by destruct (Hlater p Hp').
  - intros p Hp. apply elem_of_app in Hp as [Hp|Hp].
    + left. by destruct (Hres p Hp) as (_ & ? & _).
    + by destruct (Hlater p Hp).
Qed.

(** An event that does not bear on an entry leaves it, and its resolver,
    alone. *)
Lemma step_untouched (this : state) (e : event) (id : number) (p : nat) :
  own_resolvers this → promiseMap this !! id = Some p →
  touches (Response := Response) id this e = false →
  promiseMap (fst (step (Response := Response) this e)) !! id = Some p
  ∧ p ∉ resolved (snd (step (Response := Response) this e)).
Proof.
  intros [_ Hinj] Hp Ht.
  destruct e as [b i k|r|b i k body|b i k c| |pt m]; simpl in *;
    try (split; [done | apply not_elem_of_nil]).
  - apply bool_decide_eq_false in Ht.
    rewrite lookup_insert_ne by done. split; [done | apply not_elem_of_nil].
  - apply bool_decide_eq_false in Ht.
    rewrite lookup_insert_ne by done. split; [done | apply not_elem_of_nil].
  - destruct m as [id' response|kind]; simpl in *;
      [|split; [done | apply not_elem_of_nil]].
    destruct (decode_response response) as [res|];
      simpl; [|split; [done | apply not_elem_of_nil]].
    apply bool_decide_eq_false in Ht.
    rewrite lookup_delete_ne by done. split; [done|].
    destruct (promiseMap this !! id') as [p'|] eqn:Hp'; simpl;
      [|apply not_elem_of_nil].
    intros Hin. apply list_elem_of_singleton in Hin as ->.
    apply Ht. by eapply Hinj.
Qed.

Lemma run_untouched (es : list event) (this : state) (id : number) (p : nat) :
  own_resolvers this → promiseMap this !! id = Some p →
  untouched (Response := Response) id this es →
  promiseMap (fst (run (Response := Response) this es)) !! id = Some p
  ∧ p ∉ resolved (snd (run (Response := Response) this es)).
Proof.
  revert this. induction es as [|e es IH]; intros this Hown Hp Hes.
  { split; [done | apply not_elem_of_nil]. }
  destruct Hes as [He Hes].
  destruct (step_untouched this e id p Hown Hp He) as [Hp' Hn].
  destruct (IH _ (step_own_resolvers this e Hown) Hp' Hes) as [Hp'' Hn'].
  rewrite run_cons, run_snd_cons. split; [done|].
  unfold resolved. rewrite omap_app. intros Hin.
  apply elem_of_app in Hin as [Hin|Hin]; [by apply Hn | by apply Hn'].
Qed.

(** A resolver that is no longer in the map is never called. *)
Lemma dropped_never_resolved (es : list event) (this : state) (p : nat) :
  own_resolvers this → p < promises this →
  (∀ id, promiseMap this !! id ≠ Some p) →
  p ∉ resolved (snd (run (Response := Response) this es)).
Proof.
  intros Hown Hlt Hno Hin.
  destruct (run_resolved es this Hown) as [_ Hcl].
  destruct (Hcl p Hin) as [[id Hid]|Hge]; [by apply (Hno id) | lia].
Qed.

(** A request stored under a pending id puts its resolver in the place of
    the pending one, which is never called. *)
Lemma replaced_never_resolved (this : state) (r : GetCompletionsRequest.t)
    (p : nat) :
  own_resolvers this → promiseMap this !! requestId_of r = Some p →
  let this2 := fst (fst (getCompletions (Response := Response) this r)) in
  (∃ q, promiseMap this2 !! requestId_of r = Some q ∧ q ≠ p)
  ∧ ∀ more, p ∉ resolved (snd (run (Response := Response) this2 more)).
Proof.
  intros Hown Hp this2.
  pose proof (getCompletions_own_resolvers this r Hown) as Hown2.
  destruct Hown as [Hlt Hinj].
  pose proof (Hlt _ _ Hp) as Hlt1. simpl in Hlt1.
  split.
  { exists (promises this). subst this2. simpl. rewrite lookup_insert_eq.
    split; [done | lia]. }
  intros more. apply dropped_never_resolved; [done|subst this2; simpl; lia|].
  intros id' Hid'. subst this2. simpl in *.
  destruct (decide (requestId_of r = id')) as [<-|Hne].
  - rewrite lookup_insert_eq in Hid'. injection Hid' as Heq. lia.
  - rewrite lookup_insert_ne in Hid' by done.
    apply Hne. by eapply Hinj.
Qed.

(** C6, as the specification has it, fails.  A page sends the request it
    built from its first [getMetadata] twice: the second [getCompletions]
    stores its handle under id 1 while the handle of the first is still
    pending there, and posts a second frame with id 1.  And a page that
    hands [getCompletions] a request whose id the counter has not reached
    yet makes the id that [getMetadata] allocates next a pending one. *)
Lemma pending_id_reused :
  from_getMetadata (RJ := Sample.response_json) (QJ := Sample.request_json)
    (AJ := Sample.accept_json) Sample.fresh_client Sample.asked_twice
  ∧ promiseMap Sample.asked_client !! Num 1 = Some 0
  ∧ step (RJ := Sample.response_json) (QJ := Sample.request_json)
      (AJ := Sample.accept_json) Sample.asked_client
      (GetCompletions Sample.first_request)
    = (Sample.asked_twice_client,
       [PostMessage 0 (GetCompletionsRequestMessage (Num 1) "fn ma")])
  ∧ promiseMap Sample.asked_twice_client !! Num 1 = Some 1
  ∧ promiseMap Sample.ahead_client !! Num 1 = Some 0
  ∧ Metadata.requestId
      (snd (getMetadata Sample.ahead_client Sample.browser Sample.ide "key"))
    = 1%Z.
Proof.
  split.
  { simpl. repeat split. all: exists 1%Z; repeat split; reflexivity. }
  vm_compute. repeat split.
Qed.

(** C6, amended.  Along any run of a client the request ids handed out
    strictly increase, so no two are equal, and every call of [getMetadata]
    moves the counter up by one and returns the new value.  As long as the
    requests given to [getCompletions] carry metadata from this client's
    [getMetadata], the id handed out next is not the key of a pending
    request.  [getCompletions] itself stores its handle under the id the
    request carries: for a request whose id is pending it puts the new
    handle in the place of the pending one, and leaves the counter alone. *)
Theorem requestId_fresh (uuid : string) (es : list event) :
  let start := fst (constructor (Response := Response) uuid) in
  let this := fst (run (Response := Response) start es) in
  StronglySorted Z.lt (allocated (Response := Response) start es)
  ∧ NoDup (allocated (Response := Response) start es)
  ∧ (∀ b i k,
       let '(this', metadata) := getMetadata this b i k in
       requestId this' = (requestId this + 1)%Z
       ∧ Metadata.requestId metadata = requestId this')
  ∧ (from_getMetadata (Response := Response) start es →
     ∀ b i k,
       promiseMap this
         !! Num (Metadata.requestId (snd (getMetadata this b i k))) = None)
  ∧ (∀ r p, promiseMap this !! requestId_of r = Some p →
       let '(this', q, _) := getCompletions (Response := Response) this r in
       promiseMap this' !! requestId_of r = Some q ∧ q ≠ p
       ∧ requestId this' = requestId this).
Proof.
  intros start this.
  destruct (allocated_increasing es start) as [_ Hs].
  split; [done|]. split.
  { clear -Hs. induction Hs as [|z l Hs IH Hall]; constructor; [|done].
    intros Hin. rewrite Forall_forall in Hall.
    specialize (Hall z Hin). lia. }
  split; [by intros b i k|]. split.
  - intros Hes b i k. simpl.
    assert (bounded this) as Hb.
    { apply run_bounded; [|done]. unfold bounded. simpl.
      apply map_Forall_empty. }
    destruct (promiseMap this !! Num (requestId this + 1)) as [p|] eqn:Hp;
      [|done].
    apply Hb in Hp as (z & Hz & Hle). injection Hz as <-. lia.
  - intros r p Hp. simpl. rewrite lookup_insert_eq.
    split; [done|]. split; [|done].
    assert (own_resolvers this) as [Hlt _]
      by apply run_own_resolvers, own_resolvers_constructor.
    apply Hlt in Hp. simpl in Hp. lia.
Qed.

End foreground.

Lemma requestId_fresh_witness :
  LanguageServerClient.from_getMetadata
    (RJ := Sample.response_json) (QJ := Sample.request_json)
    (AJ := Sample.accept_json) Sample.fresh_client Sample.typing
  ∧ NoDup (LanguageServerClient.allocated
             (RJ := Sample.response_json) (QJ := Sample.request_json)
             (AJ := Sample.accept_json) Sample.fresh_client Sample.typing)
  ∧ LanguageServerClient.promiseMap
      (fst (LanguageServerClient.run
              (RJ := Sample.response_json) (QJ := Sample.request_json)
              (AJ := Sample.accept_json) Sample.fresh_client Sample.typing))
      !! Num (Metadata.requestId
                (snd (LanguageServerClient.getMetadata
                        (fst (LanguageServerClient.run
                                (RJ := Sample.response_json)
                                (QJ := Sample.request_json)
                                (AJ := Sample.accept_json)
                                Sample.fresh_client Sample.typing))
                        Sample.browser Sample.ide "key")))
    = None.
Proof.
  assert (LanguageServerClient.from_getMetadata
    (RJ := Sample.response_json) (QJ := Sample.request_json)
    (AJ := Sample.accept_json) Sample.fresh_client Sample.typing) as Hes.
  { simpl. repeat split. exists 1%Z. repeat split; reflexivity. }
  split; [exact Hes|].
  destruct (requestId_fresh (RJ := Sample.response_json)
              (QJ := Sample.request_json) (AJ := Sample.accept_json)
              "s1" Sample.typing) as (_ & Hnd & _ & Hfresh & _).
  split; [exact Hnd|].
  exact (Hfresh Hes Sample.browser Sample.ide "key").
Defined.



(** ** Auth states *)
Section auth.
Import ServiceWorker.
Context {Response : Type} {RJ : ProtoJson Response}
        {QJ : ProtoJson GetCompletionsRequest.t}
        {AJ : ProtoJson AcceptCompletionRequest.t}.

Lemma indexOf_None (s : string) (l : list string) :
  indexOf s l = None ↔ s ∉ l.
Proof.
  induction l as [|x l IH]; simpl.
  - split; [intros _; apply not_elem_of_nil | done].
  - case_decide as Hx.
    + subst. split; [done|]. intros H. exfalso. apply H. left.
    + rewrite not_elem_of_cons, <- IH.
      destruct (indexOf s l); simpl.
      * split; [done | by intros [_ ?]].
      * split; [|done]. intros _. split; [by intros ->|done].
Qed.

Lemma indexOf_Some (s : string) (l : list string) (i : nat) :
  indexOf s l = Some i → l !! i = Some s.
Proof.
  revert i. induction l as [|x l IH]; intros i; simpl; [done|].
  case_decide as Hx.
  - intros [= <-]. by subst.
  - destruct (indexOf s l) as [j|]; simpl; [|done].
    intros [= <-]. by apply IH.
Qed.

Lemma count_delete (s s' : string) (l : list string) (i : nat) :
  l !! i = Some s →
  length (filter (λ x, x = s') (l)) =
  (if decide (s = s') then 1 else 0)
  + length (filter (λ x, x = s') (delete i l)).
Proof.
  intros Hi. rewrite (delete_Permutation l i s Hi) at 1.
  rewrite filter_cons. by case_decide.
Qed.

Lemma count_push (s s' : string) (l : list string) :
  length (filter (λ x, x = s') (l ++ [s])) =
  length (filter (λ x, x = s') l) + (if decide (s = s') then 1 else 0).
Proof.
  rewrite filter_app, length_app, filter_cons, filter_nil.
  by case_decide.
Qed.

(** A message is of none of the handled types exactly when all four
    tests of the listener fail. *)
Lemma not_handled (m : ExternalMessage) :
  (type m ≠ JString "user" ∧ type m ≠ JString "allowlist"
   ∧ loosely (type m) "error" = false ∧ loosely (type m) "success" = false
   → handled m = false)
  ∧ (handled m = false →
     type m ≠ JString "user" ∧ type m ≠ JString "allowlist"
     ∧ loosely (type m) "error" = false
     ∧ loosely (type m) "success" = false).
Proof.
  unfold handled. rewrite !orb_false_iff, !bool_decide_eq_false. tauto.
Qed.

Lemma onMessageExternal_confirms (st : state) (m : ExternalMessage)
    (user : option User.t) (tok s : string) :
  confirms m = Some (tok, s) →
  onMessageExternal st m user =
  match indexOf s (authStates st) with
  | None => (st, [Log "Unexpected state:"])
  | Some i => (set_authStates st (delete i (authStates st)), [Login tok])
  end.
Proof.
  unfold confirms. destruct (not_handled m) as [_ Hn].
  destruct (handled m); [done|]. destruct (Hn eq_refl) as (H1 & H2 & H3 & H4).
  unfold onMessageExternal. rewrite !decide_False, H3, H4 by done.
  destruct (token m), (state_ m); try done. by intros [= -> ->].
Qed.

Lemma onMessageExternal_other (st : state) (m : ExternalMessage)
    (user : option User.t) :
  confirms m = None →
  fst (onMessageExternal st m user) = st
  ∧ exchanges (snd (onMessageExternal st m user)) = [].
Proof.
  unfold confirms. intros Hc. destruct (not_handled m) as [Hy Hn].
  destruct (handled m).
  - clear Hc Hn. unfold onMessageExternal.
    case_decide; [split; [done|]; simpl; by destruct (no_apiKey user)|].
    case_decide; [by split|].
    destruct (loosely (type m) "error") eqn:He; [by split|].
    destruct (loosely (type m) "success") eqn:Hs; [by split|].
    exfalso. by discriminate Hy.
  - destruct (Hn eq_refl) as (H1 & H2 & H3 & H4).
    unfold onMessageExternal. rewrite !decide_False, H3, H4 by done.
    destruct (token m), (state_ m); try done.
Qed.

Lemma step_outstanding (s : string) (st : state) (e : event Response) :
  outstanding (fst (step st e)) s + (if consumes s st e then 1 else 0)
  = outstanding st s + (if registers s e then 1 else 0).
Proof.
  unfold outstanding.
  destruct e as [user uuid portal rid|m user|user|m|port|port|m port|i|i o|i f
                |i msg|i sent].
  - simpl. unfold onInstalled. destruct (no_apiKey user); simpl; [|lia].
    rewrite count_push. case_decide; case_bool_decide; try done; lia.
  - unfold consumes, registers.
    destruct (confirms m) as [[tok s']|] eqn:Hc.
    + simpl. rewrite (onMessageExternal_confirms _ _ _ _ _ Hc).
      destruct (indexOf s' (authStates st)) as [j|] eqn:Hj; simpl.
      * apply indexOf_Some in Hj.
        rewrite (count_delete s' s (authStates st) j Hj).
        case_decide; case_bool_decide; try done; simpl;
          try case_bool_decide; try done; lia.
      * rewrite andb_false_r. lia.
    + simpl. destruct (onMessageExternal_other st m user Hc) as [-> _]. lia.
  - simpl. lia.
  - destruct m as [s'|tok|]; simpl; [|lia..].
    rewrite count_push. case_decide; case_bool_decide; try done; lia.
  - simpl. lia.
  - simpl. lia.
  - simpl. unfold onPortMessage. repeat case_match; simpl; lia.
  - simpl. unfold clientResolved. repeat case_match; simpl; lia.
  - simpl. unfold completionsSettled. repeat case_match; simpl; lia.
  - simpl. unfold acceptSettled. repeat case_match; simpl; lia.
  - simpl. unfold clientRejected. repeat case_match; simpl; lia.
  - simpl. unfold reportSettled. repeat case_match; simpl; lia.
Qed.

Lemma sw_run_cons (st : state) (e : event Response) (es : list (event Response)) :
  fst (run st (e :: es)) = fst (run (fst (step st e)) es).
Proof.
  simpl. destruct (step st e) as [st' eff]. simpl.
  by destruct (run st' es).
Qed.

Lemma run_outstanding (s : string) (es : list (event Response)) (st : state) :
  outstanding (fst (run st es)) s + consumptions s st es
  = outstanding st s + registrations s es.
Proof.
  revert st. induction es as [|e es IH]; intros st; [simpl; lia|].
  rewrite sw_run_cons. cbn [consumptions registrations].
  pose proof (IH (fst (step st e))). pose proof (step_outstanding s st e).
  lia.
Qed.

End auth.

(** ** The session registry and the clients it holds *)
Section registry.
Import ServiceWorker.
Context {Response : Type} {RJ : ProtoJson Response}
        {QJ : ProtoJson GetCompletionsRequest.t}
        {AJ : ProtoJson AcceptCompletionRequest.t}.

Local Abbreviation event := (event Response).

(** What a step can do to the store of clients. *)
Lemma step_clients (st : state) (e : event) :
  clients (fst (step st e)) = clients st
  ∨ (∃ port, e = OnConnectExternal port
             ∧ clients (fst (step st e))
               = clients st ++ [Client.constructor (name port)])
  ∨ (∃ c this, clients st !! c = Some this
               ∧ clients (fst (step st e))
                 = <[c := fst (Client.getCompletions_begin this)]> (clients st)).
Proof.
  destruct e as [user uuid portal rid|m user|user|m|port|port|m port|i|i o|i f
                |i msg|i sent];
    simpl.
  - left. unfold onInstalled. by destruct (no_apiKey user).
  - left. unfold onMessageExternal. by repeat case_match.
  - by left.
  - left. by destruct m.
  - right. left. by exists port.
  - by left.
  - unfold onPortMessage. destruct m as [r request|request|kind].
    + destruct (client_of st port) as [[c this]|] eqn:Hc; [|by left].
      destruct (fromJsonString request) as [decoded|]; [|by left].
      right. right. exists c, this. split; [|done].
      unfold client_of in Hc.
      destruct (clientMap st !! name port) as [c'|]; simpl in Hc; [|done].
      destruct (clients st !! c') eqn:Hc'; simpl in Hc; [|done].
      by injection Hc as <- <-.
    + left. by repeat case_match.
    + by left.
  - left. unfold clientResolved. by repeat case_match.
  - left. unfold completionsSettled. by repeat case_match.
  - left. unfold acceptSettled. by repeat case_match.
  - left. unfold clientRejected. by repeat case_match.
  - left. unfold reportSettled. by repeat case_match.
Qed.

Lemma step_clientMap (st : state) (e : event) :
  clientMap (fst (step st e))
  = match e with
    | OnConnectExternal port =>
        <[name port := length (clients st)]> (clientMap st)
    | OnDisconnect port => delete (name port) (clientMap st)
    | _ => clientMap st
    end.
Proof.
  destruct e as [user uuid portal rid|m user|user|m|port|port|m port|i|i o|i f
                |i msg|i sent];
    simpl; try done.
  - unfold onInstalled. by destruct (no_apiKey user).
  - unfold onMessageExternal. by repeat case_match.
  - by destruct m.
  - unfold onPortMessage. by repeat case_match.
  - unfold clientResolved. by repeat case_match.
  - unfold completionsSettled. by repeat case_match.
  - unfold acceptSettled. by repeat case_match.
  - unfold clientRejected. by repeat case_match.
  - unfold reportSettled. by repeat case_match.
Qed.

Lemma getCompletions_begin_sessionId (this : Client.state) :
  Client.sessionId (fst (Client.getCompletions_begin this))
  = Client.sessionId this.
Proof. done. Qed.

(** A client object stays where it is and keeps its session. *)
Lemma step_client_kept (st : state) (e : event) (c : nat) (this : Client.state) :
  clients st !! c = Some this →
  ∃ this', clients (fst (step st e)) !! c = Some this'
           ∧ Client.sessionId this' = Client.sessionId this.
Proof.
  intros Hc.
  destruct (step_clients st e) as [->|[(port & _ & ->)|(c' & this0 & H0 & ->)]].
  - by exists this.
  - exists this. split; [|done]. by apply lookup_app_l_Some.
  - destruct (decide (c' = c)) as [->|Hne].
    + exists (fst (Client.getCompletions_begin this0)).
      split; [|by simplify_eq].
      apply list_lookup_insert_eq. by eapply lookup_lt_Some.
    + exists this. split; [|done]. by rewrite list_lookup_insert_ne.
Qed.

Lemma begin_single_flight (this : Client.state) :
  single_flight this →
  single_flight (fst (Client.getCompletions_begin this)).
Proof.
  unfold single_flight, Client.getCompletions_begin. simpl.
  destruct (Client.abortController this) as [c|]; intros ->; simpl; [|done].
  unfold Client.abort.
  rewrite insert_app_r_alt by (rewrite length_replicate; lia).
  rewrite length_replicate, Nat.sub_diag. simpl.
  rewrite length_app, length_replicate. simpl.
  replace (c + 1) with (S c) by lia.
  by rewrite replicate_S_end.
Qed.

Lemma step_single_flight (st : state) (e : event) :
  Forall single_flight (clients st) →
  Forall single_flight (clients (fst (step st e))).
Proof.
  intros Hall.
  destruct (step_clients st e) as [->|[(port & _ & ->)|(c' & this0 & H0 & ->)]].
  - done.
  - apply Forall_app. split; [done|]. by repeat constructor.
  - apply Forall_insert; [done|]. apply begin_single_flight.
    rewrite Forall_lookup in Hall. by eapply Hall.
Qed.

Lemma run_single_flight (es : list event) (st : state) :
  Forall single_flight (clients st) →
  Forall single_flight (clients (fst (run st es))).
Proof.
  revert st. induction es as [|e es IH]; intros st Hall; [done|].
  rewrite sw_run_cons. by apply IH, step_single_flight.
Qed.
Lemma single_flight_unfired (this : Client.state) (i : nat) :
  single_flight this →
  Client.controllers this !! i = Some false
  ↔ Client.abortController this = Some i.
Proof.
  unfold single_flight.
  destruct (Client.abortController this) as [c|]; intros ->.
  - split.
    + intros Hi. f_equal.
      destruct (decide (i < c)) as [Hlt|Hge].
      * rewrite lookup_app_l in Hi by (rewrite length_replicate; lia).
        apply lookup_replicate in Hi as [? _]. done.
      * rewrite lookup_app_r in Hi by (rewrite length_replicate; lia).
        rewrite length_replicate in Hi.
        destruct (i - c) as [|k] eqn:Hk; [lia|]. by destruct k.
    + intros [= <-].
      rewrite lookup_app_r by (rewrite length_replicate; lia).
      by rewrite length_replicate, Nat.sub_diag.
  - by rewrite lookup_nil.
Qed.

(** C1, amended.  For every client object the service worker has made,
    at any point of any run: the only controller of the client that is not
    aborted is the one its field holds, the most recent one; and a call of
    [getCompletions] leaves every earlier controller aborted and the new
    one, now in the field, not aborted.  (The claim holds per client
    object, one per channel; it says nothing of the token that a client
    dropped at disconnect still holds.) *)
Theorem one_unfired_token_per_client (es : list event) (c : nat)
    (this : Client.state) :
  clients (fst (run initial es)) !! c = Some this →
  (∀ i, Client.controllers this !! i = Some false
        ↔ Client.abortController this = Some i)
  ∧ (∀ i j, Client.controllers this !! i = Some false →
            Client.controllers this !! j = Some false → i = j)
  ∧ let '(this', signal) := Client.getCompletions_begin this in
    Client.abortController this' = Some signal
    ∧ Client.aborted this' signal = false
    ∧ (∀ i, i < signal → Client.aborted this' i = true)
    ∧ (∀ i, Client.abortController this = Some i →
            Client.aborted this' i = true).
Proof.
  intros Hc.
  assert (single_flight this) as Hsf.
  { pose proof (run_single_flight es initial (Forall_nil_2 _)) as Hall.
    rewrite Forall_lookup in Hall. by eapply Hall. }
  split; [intros i; by apply single_flight_unfired|]. split.
  { intros i j Hi Hj. apply (single_flight_unfired _ _ Hsf) in Hi, Hj.
    congruence. }
  pose proof (begin_single_flight this Hsf) as Hsf'.
  destruct (Client.getCompletions_begin this) as [this' signal] eqn:Hb.
  assert (Client.abortController this' = Some signal) as Hfield.
  { unfold Client.getCompletions_begin in Hb. by injection Hb as <- <-. }
  simpl in Hsf'. unfold single_flight in Hsf'. rewrite Hfield in Hsf'.
  assert (∀ i, i < signal → Client.aborted this' i = true) as Hearlier.
  { intros i Hi. unfold Client.aborted. rewrite Hsf'.
    rewrite lookup_app_l by (rewrite length_replicate; lia).
    by rewrite lookup_replicate_2. }
  split; [done|]. split; [|split; [done|]].
  - unfold Client.aborted. rewrite Hsf'.
    rewrite lookup_app_r by (rewrite length_replicate; lia).
    by rewrite length_replicate, Nat.sub_diag.
  - intros i Hi. apply Hearlier.
    unfold single_flight in Hsf. rewrite Hi in Hsf.
    unfold Client.getCompletions_begin in Hb. rewrite Hi, Hsf in Hb.
    injection Hb as _ <-. unfold Client.abort.
    rewrite length_insert, length_app, length_replicate. simpl. lia.
Qed.
Lemma NoDup_fmap_eq {A B : Type} (f : A → B) (l : list A) (x y : A) :
  NoDup (f <$> l) → x ∈ l → y ∈ l → f x = f y → x = y.
Proof.
  induction l as [|a l IH]; simpl; intros Hnd Hx Hy Hf.
  { by apply not_elem_of_nil in Hx. }
  apply NoDup_cons in Hnd as [Ha Hnd].
  apply elem_of_cons in Hx as [->|Hx]; apply elem_of_cons in Hy as [->|Hy].
  - done.
  - exfalso. apply Ha. rewrite Hf. by apply list_elem_of_fmap_2.
  - exfalso. apply Ha. rewrite <- Hf. by apply list_elem_of_fmap_2.
  - by apply IH.
Qed.

Lemma step_registry_sound (st : state) (open : list Port) (e : event) :
  registry_sound st open →
  registry_sound (fst (step st e)) (chrome open e).
Proof.
  intros Hs s c. rewrite step_clientMap.
  assert (∀ s c, clientMap st !! s = Some c →
            ∃ this, clients (fst (step st e)) !! c = Some this
                    ∧ Client.sessionId this = s) as Hkept.
  { intros s' c' H. destruct (Hs s' c' H) as [_ (this & Hthis & <-)].
    by apply step_client_kept. }
  destruct e as [user uuid portal rid|m user|user|m|port|port|m port|i|i o|i f
                |i msg|i sent];
    try (intros H; split; [by apply (Hs s c) | by apply Hkept]).
  - destruct (decide (name port = s)) as [<-|Hne].
    + rewrite lookup_insert_eq. intros [= <-]. split.
      * exists port. split; [|done]. simpl. set_solver.
      * exists (Client.constructor (name port)). split; [|done]. simpl.
        by rewrite lookup_app_r, Nat.sub_diag.
    + rewrite lookup_insert_ne by done. intros H. split; [|by apply Hkept].
      destruct (Hs s c H) as [(p & Hp & Hn) _]. exists p. split; [|done].
      simpl. set_solver.
  - intros H. apply lookup_delete_Some in H as [Hne H].
    split; [|by apply Hkept].
    destruct (Hs s c H) as [(p & Hp & Hn) _]. exists p. split; [|done].
    simpl. apply list_elem_of_filter. split; [|done]. by intros ->.
Qed.

Lemma step_registry_complete (st : state) (open : list Port) (e : event) :
  admissible open e = true → exclusive open e = true →
  registry_complete st open →
  registry_complete (fst (step st e)) (chrome open e).
Proof.
  intros Ha Hx [Hnd Hc]. unfold registry_complete. rewrite step_clientMap.
  destruct e as [user uuid portal rid|m user|user|m|port|port|m port|i|i o|i f
                |i msg|i sent];
    try done; simpl in *.
  - apply bool_decide_eq_true in Hx. split.
    + rewrite fmap_app. apply NoDup_app. split; [done|]. split.
      * intros x Hx1 Hx2. apply list_elem_of_singleton in Hx2 as ->. done.
      * apply NoDup_singleton.
    + intros p Hp. apply elem_of_app in Hp as [Hp|Hp].
      * destruct (decide (name port = name p)) as [->|Hne].
        -- by rewrite lookup_insert_eq.
        -- rewrite lookup_insert_ne by done. by apply Hc.
      * apply list_elem_of_singleton in Hp as ->. by rewrite lookup_insert_eq.
  - apply bool_decide_eq_true in Ha. split.
    + eapply sublist_NoDup; [exact Hnd|].
      apply fmap_sublist, sublist_filter.
    + intros p Hp. apply list_elem_of_filter in Hp as [Hne Hp].
      rewrite lookup_delete_ne; [by apply Hc|].
      intros Hn. apply Hne. symmetry. by eapply (NoDup_fmap_eq name).
Qed.

Lemma run_registry (es : list event) (st : state) (open : list Port) :
  registry_sound st open →
  registry_sound (fst (run st es)) (foldl chrome open es)
  ∧ (admissible_run open es = true → exclusive_run open es = true →
     registry_complete st open →
     registry_complete (fst (run st es)) (foldl chrome open es)).
Proof.
  revert st open. induction es as [|e es IH]; intros st open Hs; [done|].
  rewrite sw_run_cons. simpl.
  destruct (IH (fst (step st e)) (chrome open e)) as [IH1 IH2].
  { by apply step_registry_sound. }
  split; [done|]. intros Ha Hx Hc.
  apply andb_true_iff in Ha as [Ha Ha'], Hx as [Hx Hx'].
  apply IH2; [done..|]. by apply step_registry_complete.
Qed.

(** C8, amended.  At any point of any run, an entry of the registry under
    a name means that a port of that name is open, and holds a client of
    that session.  The other way round needs that no two open ports share
    a name: when every port is opened under a name that no open port has,
    the registry has an entry for a session if and only if a port of that
    name is open. *)
Theorem registry_tracks_open_ports (es : list event) :
  let st := fst (run initial es) in
  let open := open_after es in
  (∀ s c, clientMap st !! s = Some c →
          (∃ p, p ∈ open ∧ name p = s)
          ∧ ∃ this, clients st !! c = Some this ∧ Client.sessionId this = s)
  ∧ (admissible_run [] es = true → exclusive_run [] es = true →
     ∀ s, is_Some (clientMap st !! s) ↔ ∃ p, p ∈ open ∧ name p = s).
Proof.
  intros st open.
  destruct (run_registry es initial []) as [Hs Hc].
  { intros s c H. simpl in H. by rewrite lookup_empty in H. }
  split; [exact Hs|]. intros Ha Hx s.
  destruct (Hc Ha Hx) as [_ Hall].
  { split; [constructor|]. intros p Hp. by apply not_elem_of_nil in Hp. }
  split.
  - intros [c H]. by destruct (Hs s c H).
  - intros (p & Hp & <-). by apply Hall.
Qed.
End registry.



(** C1, as the specification has it, fails: session ["s1"] reconnects
    while its first upstream call is out; the new client knows nothing of the
    old token, and after the second request two calls of the session are in
    flight, neither token fired. *)
Lemma reconnect_leaves_two_unfired :
  ServiceWorker.admissible_run [] Sample.reconnect = true
  ∧ ServiceWorker.exclusive_run [] Sample.reconnect = true
  ∧ length (ServiceWorker.unfired_calls
              (fst (ServiceWorker.run
                      (RJ := Sample.response_json) (QJ := Sample.request_json)
                      (AJ := Sample.accept_json)
                      ServiceWorker.initial Sample.reconnect)) "s1") = 2.
Proof. vm_compute. repeat split. Qed.

Lemma one_unfired_token_per_client_witness :
  ServiceWorker.clients
    (fst (ServiceWorker.run
            (RJ := Sample.response_json) (QJ := Sample.request_json)
            (AJ := Sample.accept_json)
            ServiceWorker.initial Sample.first_call)) !! 0
  = Some Sample.calling
  ∧ LanguageServerServiceWorkerClient.aborted
      (fst (LanguageServerServiceWorkerClient.getCompletions_begin
              Sample.calling)) 0 = true
  ∧ LanguageServerServiceWorkerClient.aborted
      (fst (LanguageServerServiceWorkerClient.getCompletions_begin
              Sample.calling)) 1 = false.
Proof.
  assert (ServiceWorker.clients
            (fst (ServiceWorker.run
                    (RJ := Sample.response_json) (QJ := Sample.request_json)
                    (AJ := Sample.accept_json)
                    ServiceWorker.initial Sample.first_call)) !! 0
          = Some Sample.calling) as Hc by (vm_compute; reflexivity).
  split; [exact Hc|].
  pose proof (one_unfired_token_per_client
                (RJ := Sample.response_json) (QJ := Sample.request_json)
                (AJ := Sample.accept_json) Sample.first_call 0 Sample.calling
                Hc) as (_ & _ & H).
  destruct (LanguageServerServiceWorkerClient.getCompletions_begin
              Sample.calling) as [this' signal] eqn:Hb.
  injection Hb as <- <-.
  destruct H as (_ & Hnew & _ & Hold).
  split; [exact (Hold 0 eq_refl) | exact Hnew].
Defined.

(** C8, as the specification has it, fails: with two ports open under the
    name ["s1"], the disconnect of the first removes the entry while the
    second is still open. *)
Lemma open_port_without_entry :
  ServiceWorker.admissible_run [] Sample.two_channels = true
  ∧ Sample.port 1 "s1" ∈ ServiceWorker.open_after Sample.two_channels
  ∧ ServiceWorker.clientMap
      (fst (ServiceWorker.run
              (RJ := Sample.response_json) (QJ := Sample.request_json)
              (AJ := Sample.accept_json)
              ServiceWorker.initial Sample.two_channels)) !! "s1" = None.
Proof.
  split; [by vm_compute|]. split; [|by vm_compute].
  vm_compute. apply list_elem_of_here.
Qed.

Lemma registry_tracks_open_ports_witness :
  ServiceWorker.admissible_run [] Sample.two_sessions = true
  ∧ ServiceWorker.exclusive_run [] Sample.two_sessions = true
  ∧ (is_Some (ServiceWorker.clientMap
                (fst (ServiceWorker.run
                        (RJ := Sample.response_json)
                        (QJ := Sample.request_json)
                        (AJ := Sample.accept_json)
                        ServiceWorker.initial Sample.two_sessions)) !! "s1")
     ↔ ∃ p, p ∈ ServiceWorker.open_after Sample.two_sessions
            ∧ ServiceWorker.name p = "s1").
Proof.
  assert (ServiceWorker.admissible_run [] Sample.two_sessions = true) as Ha
    by (vm_compute; reflexivity).
  assert (ServiceWorker.exclusive_run [] Sample.two_sessions = true) as Hx
    by (vm_compute; reflexivity).
  split; [exact Ha|]. split; [exact Hx|].
  exact (proj2 (registry_tracks_open_ports
                  (RJ := Sample.response_json) (QJ := Sample.request_json)
                  (AJ := Sample.accept_json) Sample.two_sessions) Ha Hx "s1").
Defined.

(** ** Replies to completion frames *)
Section replies.
Import ServiceWorker.
Context {Response : Type} {RJ : ProtoJson Response}
        {QJ : ProtoJson GetCompletionsRequest.t}
        {AJ : ProtoJson AcceptCompletionRequest.t}.

Local Abbreviation event := (event Response).

Lemma step_task_kept (st : state) (e : event) (i : nat) (t : task) :
  tasks st !! i = Some t → resumes i e = false →
  tasks (fst (step st e)) !! i = Some t.
Proof.
  intros Hi Hr.
  destruct e as [user uuid portal rid|m user|user|m|port|port|m port|j|j o|j f
                |j msg|j sent];
    simpl in *.
  - unfold onInstalled. by destruct (no_apiKey user).
  - unfold onMessageExternal. by repeat case_match.
  - done.
  - by destruct m.
  - done.
  - done.
  - unfold onPortMessage. repeat case_match; simpl; try done.
    all: by apply lookup_app_l_Some.
  - apply bool_decide_eq_false in Hr. unfold clientResolved.
    repeat case_match; simpl; try done.
    all: by rewrite list_lookup_insert_ne.
  - apply bool_decide_eq_false in Hr. unfold completionsSettled.
    repeat case_match; simpl; try done.
    all: by rewrite list_lookup_insert_ne.
  - apply bool_decide_eq_false in Hr. unfold acceptSettled.
    repeat case_match; simpl; try done.
    all: by rewrite list_lookup_insert_ne.
  - apply bool_decide_eq_false in Hr. unfold clientRejected.
    repeat case_match; simpl; try done.
    all: by rewrite list_lookup_insert_ne.
  - apply bool_decide_eq_false in Hr. unfold reportSettled.
    repeat case_match; simpl; try done.
    all: by rewrite list_lookup_insert_ne.
Qed.

Lemma run_task_kept (es : list event) (st : state) (i : nat) (t : task) :
  tasks st !! i = Some t → Forall (λ e, resumes i e = false) es →
  tasks (fst (run st es)) !! i = Some t.
Proof.
  revert st. induction es as [|e es IH]; intros st Hi Hes; [done|].
  apply Forall_cons in Hes as [He Hes]. rewrite sw_run_cons.
  apply IH; [|done]. by apply step_task_kept.
Qed.

Lemma run_client_kept (es : list event) (st : state) (c : nat)
    (this : Client.state) :
  clients st !! c = Some this →
  ∃ this', clients (fst (run st es)) !! c = Some this'.
Proof.
  revert st this. induction es as [|e es IH]; intros st this Hc.
  { by exists this. }
  rewrite sw_run_cons.
  destruct (step_client_kept st e c this Hc) as (this' & Hc' & _).
  by eapply IH.
Qed.

Lemma run_client_session (es : list event) (st : state) (c : nat)
    (this : Client.state) :
  clients st !! c = Some this →
  ∃ this', clients (fst (run st es)) !! c = Some this'
           ∧ Client.sessionId this' = Client.sessionId this.
Proof.
  revert st this. induction es as [|e es IH]; intros st this Hc.
  { by exists this. }
  rewrite sw_run_cons.
  destruct (step_client_kept st e c this Hc) as (this' & Hc' & Hs).
  destruct (IH _ _ Hc') as (this'' & Hc'' & Hs'').
  exists this''. split; [done|congruence].
Qed.

(** When [getCompletions] returns, it returns the response of a call that
    succeeded and nothing for one that failed; it reports only failures. *)
Lemma getCompletions_settled_result (this : Client.state) (signal : nat)
    (o : Client.outcome Response) :
  match Client.getCompletions_settled this signal o with
  | Client.Returns result => result = Client.result_of o
  | Client.Reports _ => Client.result_of o = None
  end.
Proof.
  destruct o as [r|[code message|message]]; simpl; [done|..];
    destruct (Client.aborted this signal); try done.
  by case_decide.
Qed.

Lemma replies_OfClient (eff : list Client.effect) :
  replies (OfClient <$> eff) = [].
Proof. induction eff as [|e eff IH]; [done|]. exact IH. Qed.

Lemma client_of_Some (st : state) (port : Port) (c : nat)
    (this : Client.state) :
  client_of st port = Some (c, this) → clients st !! c = Some this.
Proof.
  unfold client_of.
  destruct (clientMap st !! name port) as [c'|]; simpl; [|done].
  destruct (clients st !! c') eqn:Hc'; simpl; [|done].
  by intros [= <- <-].
Qed.

(** A listener invocation that has ended does nothing more. *)
Lemma finished_quiet (st : state) (i : nat) (e : event) :
  tasks st !! i = Some Finished → resumes i e = true → step st e = (st, []).
Proof.
  intros Ht He.
  destruct e as [user uuid portal rid|m user|user|m|pt|pt|m pt|j|j o'|j f
                |j msg|j sent];
    simpl in He; try done; apply bool_decide_eq_true in He as <-; simpl.
  - unfold clientResolved. by rewrite Ht.
  - unfold completionsSettled. by rewrite Ht.
  - unfold acceptSettled. by rewrite Ht.
  - unfold clientRejected. by rewrite Ht.
  - unfold reportSettled. by rewrite Ht.
Qed.

(** The listener invocation of a [getCompletions] frame whose request
    decodes, on a port with a client, stage by stage; other events may run
    at each [await]. *)
Lemma completion_stages (st : state) (r : number) (request : string)
    (decoded : GetCompletionsRequest.t) (port : Port) (c : nat)
    (this : Client.state) (es1 es2 es3 : list event)
    (o : Client.outcome Response) :
  let i := length (tasks st) in
  client_of st port = Some (c, this) →
  fromJsonString request = Some decoded →
  Forall (λ e, resumes i e = false) (es1 ++ es2 ++ es3) →
  let signal := snd (Client.getCompletions_begin this) in
  let st1 := fst (onPortMessage st (GetCompletionsRequestMessage r request)
                    port) in
  let st2 := fst (run st1 es1) in
  let st3 := fst (clientResolved st2 i) in
  let st4 := fst (run st3 es2) in
  let st5 := fst (completionsSettled st4 i o) in
  let st6 := fst (run st5 es3) in
  onPortMessage st (GetCompletionsRequestMessage r request) port
  = (set_tasks
       (set_clients st
          (<[c := fst (Client.getCompletions_begin this)]> (clients st)))
       (tasks st ++ [AwaitClient port r c decoded signal]), [])
  ∧ tasks st2 !! i = Some (AwaitClient port r c decoded signal)
  ∧ (∃ this2, clients st2 !! c = Some this2
       ∧ Client.sessionId this2 = Client.sessionId this
       ∧ clientResolved st2 i
         = (set_tasks st2 (<[i := AwaitCompletions port r c signal]> (tasks st2)),
            [OfClient (Client.getCompletions_call this2 decoded signal)]))
  ∧ tasks st4 !! i = Some (AwaitCompletions port r c signal)
  ∧ ∃ this4, clients st4 !! c = Some this4
      ∧ match Client.getCompletions_settled this4 signal o with
        | Client.Returns result =>
            completionsSettled st4 i o
            = (set_tasks st4 (<[i := Finished]> (tasks st4)),
               [reply port r result])
            ∧ tasks st5 !! i = Some Finished
        | Client.Reports message =>
            completionsSettled st4 i o
            = (set_tasks st4 (<[i := AwaitReport port r]> (tasks st4)),
               OfClient <$> Client.report message)
            ∧ tasks st6 !! i = Some (AwaitReport port r)
            ∧ ∀ sent,
                reportSettled (Response := Response) st6 i sent
                = (set_tasks st6 (<[i := Finished]> (tasks st6)),
                   if sent then [reply (Response := Response) port r None] else [])
        end.
Proof.
  intros i Hc Hdec Hes signal.
  apply Forall_app in Hes as [Hes1 Hes]. apply Forall_app in Hes as [Hes2 Hes3].
  unfold onPortMessage. rewrite Hc, Hdec.
  apply client_of_Some in Hc.
  subst signal.
  assert (Client.sessionId (fst (Client.getCompletions_begin this))
          = Client.sessionId this) as Hs' by done.
  destruct (Client.getCompletions_begin this) as [this' signal]. simpl fst.
  simpl snd. simpl fst in Hs'.
  set (st1 := set_tasks _ _).
  set (st2 := fst (run st1 es1)). set (st3 := fst (clientResolved st2 i)).
  set (st4 := fst (run st3 es2)). set (st5 := fst (completionsSettled st4 i o)).
  set (st6 := fst (run st5 es3)).
  assert (tasks st1 !! i = Some (AwaitClient port r c decoded signal)) as Ht1.
  { subst st1 i. simpl. by rewrite lookup_app_r, Nat.sub_diag. }
  assert (clients st1 !! c = Some this') as Hc1.
  { subst st1. simpl. apply list_lookup_insert_eq. by eapply lookup_lt_Some. }
  pose proof (run_task_kept es1 st1 i _ Ht1 Hes1) as Ht2. fold st2 in Ht2.
  destruct (run_client_session es1 st1 c this' Hc1) as (this2 & Hc2 & Hs2).
  fold st2 in Hc2.
  assert (clientResolved st2 i
          = (set_tasks st2 (<[i := AwaitCompletions port r c signal]> (tasks st2)),
             [OfClient (Client.getCompletions_call this2 decoded signal)]))
    as Hres.
  { unfold clientResolved. by rewrite Ht2, Hc2. }
  assert (tasks st3 !! i = Some (AwaitCompletions port r c signal)) as Ht3.
  { subst st3. rewrite Hres. simpl. apply list_lookup_insert_eq.
    by eapply lookup_lt_Some. }
  assert (clients st3 !! c = Some this2) as Hc3.
  { subst st3. by rewrite Hres. }
  pose proof (run_task_kept es2 st3 i _ Ht3 Hes2) as Ht4. fold st4 in Ht4.
  destruct (run_client_kept es2 st3 c this2 Hc3) as (this4 & Hc4).
  fold st4 in Hc4.
  split; [done|]. split; [done|].
  split; [exists this2; split; [done|]; split; [congruence | done]|].
  split; [done|].
  exists this4. split; [done|].
  subst st6 st5. unfold completionsSettled. rewrite Ht4, Hc4.
  destruct (Client.getCompletions_settled this4 signal o) as [result|message].
  - split; [done|]. simpl. apply list_lookup_insert_eq. by eapply lookup_lt_Some.
  - split; [done|]. simpl fst.
    set (st5 := set_tasks _ _).
    assert (tasks st5 !! i = Some (AwaitReport port r)) as Ht5.
    { subst st5. simpl. apply list_lookup_insert_eq. by eapply lookup_lt_Some. }
    pose proof (run_task_kept es3 st5 i _ Ht5 Hes3) as Ht6.
    split; [done|]. intros sent. unfold reportSettled. rewrite Ht6.
    by destruct sent.
Qed.

End replies.



(** * Further properties *)

(** ** The foreground client over whole runs *)
Section foreground_runs.
Import LanguageServerClient.
Context {Response : Type} {RJ : ProtoJson Response}
        {QJ : ProtoJson GetCompletionsRequest.t}
        {AJ : ProtoJson AcceptCompletionRequest.t}.

(** X1. A request and its answer: [getCompletions] stores the resolver of
    the promise it returns under the id it posts, whatever was stored under
    that id before.  A reply frame with that id whose response is absent or
    decodes calls this resolver with the decoded response and empties the
    slot; a second frame with the same id then finds nothing and leaves the
    client as it is.  A reply frame whose response does not decode ends the
    listener before that: no resolver is called and the slot stays. *)
Theorem getCompletions_then_reply (this : state)
    (request : GetCompletionsRequest.t) (response again : option string) :
  let '(this1, p, eff) := getCompletions (Response := Response) this request in
  let id := requestId_of request in
  eff = [PostMessage (port this)
           (GetCompletionsRequestMessage id (toJsonString request))]
  ∧ promiseMap this1 !! id = Some p
  ∧ match decode_response (Response := Response) response with
    | Some res =>
        let '(this2, eff2) :=
          onMessage this1 (GetCompletionsResponseMessage id response) in
        eff2 = [Resolve p res]
        ∧ promiseMap this2 = delete id (promiseMap this)
        ∧ onMessage (Response := Response) this2
            (GetCompletionsResponseMessage id again) = (this2, [])
    | None =>
        onMessage (Response := Response) this1
          (GetCompletionsResponseMessage id response) = (this1, [])
    end.
Proof.
  simpl. split; [done|]. rewrite lookup_insert_eq. split; [done|].
  destruct (decode_response response) as [res|]; [|done].
  split; [done|]. cbn [promiseMap]. rewrite delete_insert_eq. split; [done|].
  rewrite lookup_delete_eq, delete_delete_eq.
  by destruct (decode_response again).
Qed.

(** X2. Along any run of a client no promise is resolved twice: the
    resolvers called by the [onMessage] listeners are all different,
    whatever frames arrive and however request ids are reused. *)
Theorem promise_resolved_at_most_once (uuid : string) (es : list event) :
  NoDup (resolved
           (snd (run (Response := Response)
                   (fst (constructor (Response := Response) uuid)) es))).
Proof.
  apply run_resolved. split; simpl; [apply map_Forall_empty|].
  intros ??? H. by rewrite lookup_empty in H.
Qed.

Lemma step_well_addressed (this : state) (e : event) :
  sessionId (fst (step (Response := Response) this e)) = sessionId this
  ∧ port (fst (step (Response := Response) this e))
    = last_port (port this) (snd (step (Response := Response) this e))
  ∧ ∀ rest,
      well_addressed (sessionId this)
        (port (fst (step (Response := Response) this e))) rest →
      well_addressed (sessionId this) (port this)
        (snd (step (Response := Response) this e) ++ rest).
Proof.
  destruct e as [b i k|r|b i k body|b i k c| |pt [id response|kind]];
    simpl; try done.
  destruct (decode_response response) as [res|]; [|done].
  destruct (promiseMap this !! id); simpl; done.
Qed.

Lemma run_well_addressed (es : list event) (this : state) :
  sessionId (fst (run (Response := Response) this es)) = sessionId this
  ∧ port (fst (run (Response := Response) this es))
    = last_port (port this) (snd (run (Response := Response) this es))
  ∧ well_addressed (sessionId this) (port this)
      (snd (run (Response := Response) this es)).
Proof.
  revert this. induction es as [|e es IH]; intros this; [done|].
  rewrite run_cons, run_snd_cons.
  destruct (step_well_addressed this e) as (Hs & Hp & Hw).
  destruct (IH (fst (step (Response := Response) this e))) as (IHs & IHp & IHw).
  rewrite Hs in IHs, IHw. split; [done|]. split.
  - unfold last_port. rewrite foldl_app. fold (last_port (port this)
      (snd (step (Response := Response) this e))). by rewrite <- Hp.
  - by apply Hw.
Qed.

(** X3. Reconnecting is invisible to callers: along any run of a client,
    every port it opens carries the session id of the constructor as its
    name, the ports are opened one after the other, every frame is posted on
    the port opened last, and the metadata of every request names the same
    session. *)
Theorem client_keeps_session (uuid : string) (es : list event) :
  let start := fst (constructor (Response := Response) uuid) in
  let '(this, eff) := run (Response := Response) start es in
  snd (constructor (Response := Response) uuid) = [Connect 0 uuid]
  ∧ well_addressed uuid 0 eff
  ∧ port this = last_port 0 eff
  ∧ sessionId this = uuid
  ∧ ∀ b i k, Metadata.sessionId (snd (getMetadata this b i k)) = uuid.
Proof.
  intros start.
  destruct (run_well_addressed es start) as (Hs & Hp & Hw).
  destruct (run start es) as [this eff]. simpl in *.
  do 4 (split; [done|]). intros b i k. exact Hs.
Qed.
End foreground_runs.

(** ** The credential: poller, login and server URL *)
Section credential.

Lemma last_char_app (p s : string) :
  s ≠ "" → last_char (p +:+ s) = last_char s.
Proof.
  intros Hs. induction p as [|c p IH]; [done|].
  simpl. rewrite IH. destruct (p +:+ s) eqn:Hps; [|done].
  destruct p; simpl in Hps; [done | discriminate].
Qed.

(** X4. The field of the poller holds what the latest completed tick
    fetched, as a plain value; as long as no tick has completed it still
    holds the promise of the constructor, settled or not, and a completed
    tick is never undone by the promise settling late. *)
Theorem poller_holds_latest_tick (es : list ApiKeyPoller.event) :
  ApiKeyPoller.apiKey (ApiKeyPoller.run es)
  = match last_tick es with
    | Some response => ApiKeyPoller.Plain (getApiKey response)
    | None => ApiKeyPoller.Promise (getApiKey <$> first_initial es)
    end.
Proof.
  induction es as [|e es IH] using rev_ind; [done|].
  unfold ApiKeyPoller.run, last_tick, first_initial in *.
  rewrite !foldl_snoc. destruct e as [r|r]; simpl; [|done].
  unfold ApiKeyPoller.initialResolved. rewrite IH.
  destruct (foldl _ None es) as [t|]; [done|].
  by destruct (foldl _ None es).
Qed.

(** X5. The default server is used exactly when storage holds no portal
    URL, or an empty one; any other portal URL is used with the route of
    the language server behind it. *)
Theorem getLanguageServerUrl_default_iff (user : option User.t) :
  (getLanguageServerUrl user = "https://server.codeium.com"
   ↔ user ≫= User.userPortalUrl = None
     ∨ user ≫= User.userPortalUrl = Some "")
  ∧ ∀ portal, user ≫= User.userPortalUrl = Some portal → portal ≠ "" →
      getLanguageServerUrl user = portal +:+ "/_route/language_server".
Proof.
  unfold getLanguageServerUrl.
  destruct (user ≫= User.userPortalUrl) as [portal|]; split.
  - case_decide as Hp.
    + subst. split; [by right | done].
    + split.
      * intros Heq. exfalso.
        assert (last_char (portal +:+ "/_route/language_server")
                = last_char "https://server.codeium.com") as Hl
          by by rewrite Heq.
        rewrite last_char_app in Hl by done. discriminate.
      * intros [?|[= ->]]; done.
  - intros p [= <-] Hne. by case_decide.
  - split; [by left | done].
  - done.
Qed.

Lemma getLanguageServerUrl_default_iff_witness :
  getLanguageServerUrl
    (Some {| User.apiKey := Some "key"; User.name := None;
             User.userPortalUrl := Some "https://portal.example" |})
  = "https://portal.example/_route/language_server".
Proof.
  apply (proj2 (getLanguageServerUrl_default_iff _) "https://portal.example");
    [reflexivity | discriminate].
Defined.

(** X6. [login] writes the user to storage only when the registration
    succeeded, and then once: with the registered key, which is the key
    [getApiKey] and the next tick of a poller read from it, and with the
    portal URL that decides the server of later connections.  When the
    registration fails nothing is stored and [loggedIn] is not called. *)
Theorem login_stores_registered_user (token : string)
    (portalUrl : option string) (registration : Login.RegisteredUser + string)
    (p : ApiKeyPoller.state) :
  match registration with
  | inl registered =>
      ∃ user,
        Login.stored (Login.login token portalUrl registration) = [user]
        ∧ getApiKey (Some user) = Some (Login.api_key registered)
        ∧ ApiKeyPoller.apiKey (ApiKeyPoller.tick p (Some user))
          = ApiKeyPoller.Plain (Some (Login.api_key registered))
        ∧ ServiceWorker.no_apiKey (Some user) = false
        ∧ getLanguageServerUrl (Some user) = getLanguageServerUrl
            (Some {| User.apiKey := None; User.name := None;
                     User.userPortalUrl := portalUrl |})
  | inr _ =>
      Login.stored (Login.login token portalUrl registration) = []
      ∧ Login.LoggedIn ∉ Login.login token portalUrl registration
  end.
Proof.
  destruct registration as [registered|error]; simpl.
  - eexists. split; [reflexivity|]. by repeat split.
  - split; [done|]. intros Hin.
    apply elem_of_cons in Hin as [?|Hin]; [done|].
    apply list_elem_of_singleton in Hin. done.
Qed.
End credential.

(** ** Auth states: what triggers an exchange *)
Section auth_more.
Import ServiceWorker.
Context {Response : Type} {RJ : ProtoJson Response}
        {QJ : ProtoJson GetCompletionsRequest.t}
        {AJ : ProtoJson AcceptCompletionRequest.t}.

Lemma indexOf_snoc (s : string) (l : list string) :
  s ∉ l → indexOf s (l ++ [s]) = Some (length l).
Proof.
  induction l as [|x l IH]; simpl; intros Hs.
  - by case_decide.
  - apply not_elem_of_cons in Hs as [Hne Hs]. case_decide; [congruence|].
    by rewrite IH.
Qed.

Lemma delete_snoc (s : string) (l : list string) :
  delete (length l) (l ++ [s]) = l.
Proof. induction l as [|x l IH]; simpl; [done|]. by rewrite IH. Qed.

Lemma step_registers (st : state) (e : event Response) (s : string) :
  registers s e = true →
  authStates (fst (step st e)) = authStates st ++ [s].
Proof.
  destruct e as [user uuid portal rid|m user|user|m|port|port|m port|i|i o|i f
                |i msg|i sent];
    simpl; try done.
  - intros H. apply andb_true_iff in H as [Hk Hs].
    apply bool_decide_eq_true in Hs as ->.
    unfold onInstalled. by rewrite Hk.
  - destruct m as [s'|tok|]; simpl; try done.
    intros H. by apply bool_decide_eq_true in H as ->.
Qed.


End auth_more.



(** ** The service worker over whole runs *)
Section service_worker_runs.
Import ServiceWorker.
Context {Response : Type} {RJ : ProtoJson Response}
        {QJ : ProtoJson GetCompletionsRequest.t}
        {AJ : ProtoJson AcceptCompletionRequest.t}.

Local Abbreviation event := (event Response).
Local Abbreviation owed ts := (length (filter (λ t, owes_reply t = true) ts)).

Lemma sw_run_snd_cons (st : state) (e : event) (es : list event) :
  snd (run st (e :: es)) = snd (step st e) ++ snd (run (fst (step st e)) es).
Proof.
  simpl. destruct (step st e) as [st' eff]. simpl.
  by destruct (run st' es).
Qed.

Lemma owed_insert (ts : list task) (i : nat) (t t' : task) :
  ts !! i = Some t →
  owed (<[i := t']> ts) + (if owes_reply t then 1 else 0)
  = owed ts + (if owes_reply t' then 1 else 0).
Proof.
  revert i. induction ts as [|x ts IH]; intros i Hi; [done|].
  destruct i as [|i]; simpl in *.
  - injection Hi as ->. rewrite !filter_cons.
    destruct (owes_reply t), (owes_reply t'); simpl;
      repeat case_decide; simpl; try done; lia.
  - specialize (IH i Hi). rewrite !filter_cons.
    case_decide; simpl; lia.
Qed.

Lemma owed_snoc (ts : list task) (t : task) :
  owed (ts ++ [t]) = owed ts + (if owes_reply t then 1 else 0).
Proof.
  rewrite filter_app, length_app, filter_cons, filter_nil.
  destruct (owes_reply t); by case_decide.
Qed.

Lemma step_owed (st : state) (e : event) :
  length (replies (snd (step st e))) + owed (tasks (fst (step st e)))
  + (if drops st e then 1 else 0)
  = owed (tasks st) + (if completion_frame e then 1 else 0).
Proof.
  destruct e as [user uuid portal rid|m user|user|m|port|port|m port|i|i o|i f
                |i msg|i sent];
    simpl.
  - unfold onInstalled. destruct (no_apiKey user); simpl; lia.
  - unfold onMessageExternal. repeat case_match; simpl; lia.
  - destruct (no_apiKey user); simpl; lia.
  - destruct m; simpl; lia.
  - lia.
  - lia.
  - unfold onPortMessage. destruct m as [r request|request|kind].
    + destruct (client_of st port) as [[c this]|]; [|simpl; lia].
      destruct (fromJsonString request) as [decoded|]; [|simpl; lia].
      destruct (Client.getCompletions_begin this) as [this' signal]. simpl.
      rewrite owed_snoc. simpl. lia.
    + destruct (client_of st port) as [[c this]|]; simpl; [|lia].
      destruct (fromJsonString request) as [decoded|]; simpl; [|lia].
      rewrite owed_snoc. simpl. lia.
    + simpl. lia.
  - unfold clientResolved.
    destruct (tasks st !! i) as [t|] eqn:Hi; [|simpl; lia].
    destruct t; try (simpl; lia);
      destruct (clients st !! client); simpl; try lia.
    + pose proof (owed_insert (tasks st) i _
                    (AwaitCompletions port requestId client signal) Hi) as H.
      simpl in H. lia.
    + pose proof (owed_insert (tasks st) i _ AwaitAccept Hi) as H.
      simpl in H. lia.
  - unfold completionsSettled.
    destruct (tasks st !! i) as [t|] eqn:Hi; [|simpl; lia].
    destruct t; try (simpl; lia).
    destruct (clients st !! client); [|simpl; lia].
    destruct (Client.getCompletions_settled _ _ _) as [response|message]; simpl.
    + pose proof (owed_insert (tasks st) i _ Finished Hi) as H.
      simpl in H. lia.
    + pose proof (owed_insert (tasks st) i _ (AwaitReport port requestId) Hi)
        as H.
      simpl in H. lia.
  - unfold acceptSettled.
    destruct (tasks st !! i) as [t|] eqn:Hi; [|simpl; lia].
    destruct t; try (simpl; lia). simpl.
    rewrite replies_OfClient.
    pose proof (owed_insert (tasks st) i _ Finished Hi) as H.
    simpl in H. simpl. lia.
  - unfold clientRejected.
    destruct (tasks st !! i) as [t|] eqn:Hi; [|simpl; lia].
    destruct t; try (simpl; lia); simpl.
    + pose proof (owed_insert (tasks st) i _ Finished Hi) as H.
      simpl in H. lia.
    + pose proof (owed_insert (tasks st) i _ Finished Hi) as H.
      simpl in H. lia.
  - unfold reportSettled.
    destruct (tasks st !! i) as [t|] eqn:Hi; [|destruct sent; simpl; lia].
    destruct t; try (destruct sent; simpl; lia).
    pose proof (owed_insert (tasks st) i _ Finished Hi) as H.
    destruct sent; simpl in *; lia.
Qed.

Lemma run_owed (es : list event) (st : state) :
  length (replies (snd (run st es))) + owed (tasks (fst (run st es)))
  + dropped st es
  = owed (tasks st) + length (filter (λ e, completion_frame e = true) es).
Proof.
  revert st. induction es as [|e es IH]; intros st; [simpl; lia|].
  rewrite sw_run_cons, sw_run_snd_cons. unfold replies at 1.
  rewrite omap_app, length_app.
  fold (replies (snd (step st e))).
  fold (replies (snd (run (fst (step st e)) es))).
  pose proof (IH (fst (step st e))). pose proof (step_owed st e).
  rewrite filter_cons. cbn [dropped].
  destruct (completion_frame e); case_decide; try done; simpl; lia.
Qed.

End service_worker_runs.

(** ** Supersession and isolation of sessions *)
Section supersession.
Import ServiceWorker.
Context {Response : Type} {RJ : ProtoJson Response}
        {QJ : ProtoJson GetCompletionsRequest.t}
        {AJ : ProtoJson AcceptCompletionRequest.t}.

Local Abbreviation event := (event Response).

Lemma step_client_grows (st : state) (e : event) (c : nat)
    (this : Client.state) :
  clients st !! c = Some this →
  ∃ this', clients (fst (step st e)) !! c = Some this'
           ∧ (length (Client.controllers this)
              ≤ length (Client.controllers this'))%nat.
Proof.
  intros Hc.
  destruct (step_clients st e) as [->|[(port & _ & ->)|(c' & this0 & H0 & ->)]].
  - by exists this.
  - exists this. split; [|done]. by apply lookup_app_l_Some.
  - destruct (decide (c' = c)) as [->|Hne].
    + exists (fst (Client.getCompletions_begin this0)). split.
      * apply list_lookup_insert_eq. by eapply lookup_lt_Some.
      * simplify_eq. simpl. rewrite length_app. simpl.
        destruct (Client.abortController this); unfold Client.abort;
          rewrite ?length_insert; lia.
    + exists this. split; [|done]. by rewrite list_lookup_insert_ne.
Qed.

Lemma step_task_valid_kept (st : state) (e : event) (t : task) :
  task_valid st t → task_valid (fst (step st e)) t.
Proof.
  destruct t as [port r c req signal|port r c signal|port r|c req| |]; simpl;
    try done.
  all: intros (this & Hc & Hs);
    destruct (step_client_grows st e c this Hc) as (this' & Hc' & Hle);
    exists this'; split; [done|lia].
Qed.

Lemma step_task_valid (st : state) (e : event) :
  Forall (task_valid st) (tasks st) →
  Forall (task_valid (fst (step st e))) (tasks (fst (step st e))).
Proof.
  intros Hall.
  assert (Forall (task_valid (fst (step st e))) (tasks st)) as Hkept.
  { eapply Forall_impl; [exact Hall|]. intros t. apply step_task_valid_kept. }
  destruct e as [user uuid portal rid|m user|user|m|port|port|m port|i|i o|i f
                |i msg|i sent];
    simpl in *.
  - unfold onInstalled in *. by destruct (no_apiKey user).
  - unfold onMessageExternal in *. by repeat case_match.
  - done.
  - by destruct m.
  - done.
  - done.
  - unfold onPortMessage in *. destruct m as [r request|request|kind].
    + destruct (client_of st port) as [[c this]|] eqn:Hc; [|done].
      destruct (fromJsonString request) as [decoded|]; [|done].
      apply client_of_Some in Hc.
      destruct (Client.getCompletions_begin this) as [this' signal] eqn:Hb.
      simpl in *. apply Forall_app. split; [done|].
      apply Forall_singleton. simpl. exists this'. split.
      * apply list_lookup_insert_eq. by eapply lookup_lt_Some.
      * unfold Client.getCompletions_begin in Hb. injection Hb as <- <-.
        simpl. rewrite length_app. simpl. lia.
    + destruct (client_of st port) as [[c this]|]; [|done].
      destruct (fromJsonString request) as [decoded|]; [|done].
      simpl in *. apply Forall_app. split; [done|]. by apply Forall_singleton.
    + done.
  - unfold clientResolved in *.
    destruct (tasks st !! i) as [t|] eqn:Hi; [|done].
    destruct t; try done; destruct (clients st !! client) eqn:Hcl; try done;
      simpl in *; apply Forall_insert; try done.
    rewrite Forall_lookup in Hkept. exact (Hkept i _ Hi).
  - unfold completionsSettled in *.
    destruct (tasks st !! i) as [t|] eqn:Hi; [|done].
    destruct t; try done. destruct (clients st !! client); [|done].
    destruct (Client.getCompletions_settled _ _ _); simpl in *;
      by apply Forall_insert.
  - unfold acceptSettled in *.
    destruct (tasks st !! i) as [t|] eqn:Hi; [|done].
    destruct t; try done. simpl in *. by apply Forall_insert.
  - unfold clientRejected in *.
    destruct (tasks st !! i) as [t|] eqn:Hi; [|done].
    destruct t; try done; simpl in *; by apply Forall_insert.
  - unfold reportSettled in *.
    destruct (tasks st !! i) as [t|] eqn:Hi; [|done].
    destruct t; try done. simpl in *. by apply Forall_insert.
Qed.

Lemma run_task_valid (es : list event) (st : state) :
  Forall (task_valid st) (tasks st) →
  Forall (task_valid (fst (run st es))) (tasks (fst (run st es))).
Proof.
  revert st. induction es as [|e es IH]; intros st Hall; [done|].
  rewrite sw_run_cons. by apply IH, step_task_valid.
Qed.


(** X11. Sessions do not share a client: at any point of any run two
    different names in the registry lead to two different client objects,
    and a frame that arrives on a port of the one name leaves the client of
    the other name, tokens included, exactly as it was. *)
Theorem sessions_do_not_share_clients (es : list event) (s1 s2 : string)
    (c1 c2 : nat) :
  let st := fst (run initial es) in
  clientMap st !! s1 = Some c1 → clientMap st !! s2 = Some c2 → s1 ≠ s2 →
  c1 ≠ c2
  ∧ ∀ m port, name port = s1 →
      clients (fst (onPortMessage st m port)) !! c2 = clients st !! c2.
Proof.
  intros st H1 H2 Hne.
  destruct (run_registry es initial []) as [Hs _].
  { intros s c H. simpl in H. by rewrite lookup_empty in H. }
  fold st in Hs.
  destruct (Hs s1 c1 H1) as [_ (this1 & Hc1 & Hn1)].
  destruct (Hs s2 c2 H2) as [_ (this2 & Hc2 & Hn2)].
  assert (c1 ≠ c2) as Hc by (intros ->; simplify_eq).
  split; [done|]. intros m port Hp. unfold onPortMessage.
  destruct m as [r request|request|kind]; [| |done].
  - destruct (client_of st port) as [[c this]|] eqn:Hcl; [|done].
    destruct (fromJsonString request) as [decoded|]; [|done].
    unfold client_of in Hcl. rewrite Hp, H1 in Hcl. simpl in Hcl.
    rewrite Hc1 in Hcl. simpl in Hcl. injection Hcl as <- <-.
    destruct (Client.getCompletions_begin this1). simpl.
    by rewrite list_lookup_insert_ne.
  - destruct (client_of st port) as [[c this]|]; [|done].
    by destruct (fromJsonString request).
Qed.
End supersession.

(** ** From the page to the upstream call and back *)
Section bridge.
Import ServiceWorker.
Context {Response : Type} {RJ : ProtoJson Response}
        {QJ : ProtoJson GetCompletionsRequest.t}
        {AJ : ProtoJson AcceptCompletionRequest.t}.

Local Abbreviation event := (event Response).

Lemma getHeaders_session (this this' : Client.state) (k : option string) :
  Client.sessionId this' = Client.sessionId this →
  Client.getHeaders this' k = Client.getHeaders this k.
Proof. intros Hs. unfold Client.getHeaders. by rewrite Hs. Qed.


(** The way of an [acceptCompletion] frame whose request decodes through
    the listener. *)
Lemma accept_pipeline (st : state) (request : string)
    (decoded : AcceptCompletionRequest.t) (port : Port) (c : nat)
    (worker : Client.state) (es1 es2 : list event) (failure : option string)
    (message : string) :
  client_of st port = Some (c, worker) →
  fromJsonString request = Some decoded →
  Forall (λ e, resumes (length (tasks st)) e = false) es1 →
  Forall (λ e, resumes (length (tasks st)) e = false) es2 →
  let i := length (tasks st) in
  let st2 := fst (run (fst (onPortMessage st
                              (AcceptCompletionRequestMessage request) port))
                    es1) in
  let st4 := fst (run (fst (clientResolved st2 i)) es2) in
  snd (onPortMessage st (AcceptCompletionRequestMessage request) port) = []
  ∧ snd (clientResolved st2 i)
    = [OfClient (Client.CallAcceptCompletion decoded
                   (Client.getHeaders worker
                      (Metadata.apiKey
                         <$> AcceptCompletionRequest.metadata decoded)))]
  ∧ snd (acceptSettled st4 i failure)
    = OfClient <$> Client.acceptedLastCompletion_settled failure
  ∧ snd (clientRejected st2 i message)
    = [OfClient (Client.ConsoleLog message)].
Proof.
  intros Hc Hdec Hes1 Hes2 i st2 st4. subst st4 st2.
  unfold onPortMessage. rewrite Hc, Hdec.
  apply client_of_Some in Hc. simpl. set (st1 := set_tasks _ _).
  assert (tasks st1 !! i = Some (AwaitClientAccept c decoded))
    as Ht1.
  { subst st1 i. simpl. by rewrite lookup_app_r, Nat.sub_diag. }
  assert (clients st1 !! c = Some worker) as Hc1 by done.
  pose proof (run_task_kept es1 st1 i _ Ht1 Hes1) as Ht1'.
  destruct (run_client_session es1 st1 c worker Hc1) as (w2 & Hc2 & Hs2).
  split; [done|].
  assert (snd (clientRejected (fst (run st1 es1)) i message)
          = [OfClient (Client.ConsoleLog message)]) as Hrej.
  { unfold clientRejected. by rewrite Ht1'. }
  unfold clientResolved in *. rewrite Ht1', Hc2 in *. simpl in *. split.
  { unfold Client.acceptedLastCompletion_call.
    by rewrite (getHeaders_session worker w2) by congruence. }
  split; [|exact Hrej].
  set (st3 := set_tasks (fst (run st1 es1)) _) in *.
  assert (tasks st3 !! i = Some AwaitAccept) as Ht3.
  { subst st3. simpl. apply list_lookup_insert_eq. by eapply lookup_lt_Some. }
  pose proof (run_task_kept es2 st3 i _ Ht3 Hes2) as Ht3'.
  unfold acceptSettled. by rewrite Ht3'.
Qed.

(** X13. An acceptance end to end.  [acceptedLastCompletion] of a page's
    client takes a new request id, stores no resolver and posts one frame;
    that frame, handed to the port listener of a service worker that has a
    client for the port, leads to one upstream [acceptCompletion] call with
    the decoded request and the headers of that session; when the call has
    settled nothing is posted back and nothing is reported, a failure is
    only logged, and so is a rejection of [this.client].  When the request
    of the frame does not decode, the listener ends at once and does
    nothing. *)
Theorem acceptance_end_to_end (this : LanguageServerClient.state)
    (browser : Browser.t) (ide : IdeInfo.t) (apiKey completionId : string)
    (st : state) (port : Port) (c : nat) (worker : Client.state)
    (es1 es2 : list event) (failure : option string) (message : string) :
  client_of st port = Some (c, worker) →
  Forall (λ e, resumes (length (tasks st)) e = false) (es1 ++ es2) →
  let i := length (tasks st) in
  let '(this1, eff) :=
    LanguageServerClient.acceptedLastCompletion (Response := Response)
      this browser ide apiKey completionId in
  LanguageServerClient.promiseMap this1 = LanguageServerClient.promiseMap this
  ∧ LanguageServerClient.requestId this1
    = (LanguageServerClient.requestId this + 1)%Z
  ∧ ∃ request,
      eff = [LanguageServerClient.PostMessage
               (LanguageServerClient.port this)
               (AcceptCompletionRequestMessage request)]
      ∧ match fromJsonString (M := AcceptCompletionRequest.t) request with
        | Some decoded =>
            let st2 := fst (run (fst (onPortMessage st
                                        (AcceptCompletionRequestMessage request)
                                        port)) es1) in
            let st4 := fst (run (fst (clientResolved st2 i)) es2) in
            snd (clientResolved st2 i)
            = [OfClient (Client.CallAcceptCompletion decoded
                           (Client.getHeaders worker
                              (Metadata.apiKey
                                 <$> AcceptCompletionRequest.metadata decoded)))]
            ∧ replies (snd (onPortMessage st
                              (AcceptCompletionRequestMessage request) port)
                       ++ snd (clientResolved st2 i)
                       ++ snd (acceptSettled st4 i failure)) = []
            ∧ snd (acceptSettled st4 i failure)
              = match failure with
                | Some message => [OfClient (Client.ConsoleLog message)]
                | None => []
                end
            ∧ snd (clientRejected st2 i message)
              = [OfClient (Client.ConsoleLog message)]
        | None =>
            onPortMessage st (AcceptCompletionRequestMessage request) port
            = (st, [])
        end.
Proof.
  intros Hc Hes i. apply Forall_app in Hes as [Hes1 Hes2].
  unfold LanguageServerClient.acceptedLastCompletion.
  cbn [LanguageServerClient.getMetadata LanguageServerClient.promiseMap
       LanguageServerClient.requestId LanguageServerClient.port].
  split; [done|]. split; [done|]. eexists. split; [reflexivity|].
  match goal with
  | |- context [AcceptCompletionRequestMessage ?r] => set (request := r)
  end.
  destruct (fromJsonString request) as [decoded|] eqn:Hdec.
  2: { unfold onPortMessage. by rewrite Hc, Hdec. }
  destruct (accept_pipeline st request decoded port c worker es1 es2 failure
              message Hc Hdec Hes1 Hes2) as (H1 & H2 & H3 & H4).
  cbv zeta in *. subst i.
  split; [exact H2|]. split; [|split; [|exact H4]].
  - rewrite H1, H2, H3. simpl. apply replies_OfClient.
  - rewrite H3. by destruct failure.
Qed.
End bridge.


Lemma sessions_do_not_share_clients_witness :
  0 ≠ 1
  ∧ ServiceWorker.clients
      (fst (ServiceWorker.onPortMessage
              (QJ := Sample.request_json) (AJ := Sample.accept_json)
              Scenario.two_open_state
              (GetCompletionsRequestMessage (Num 1) "fn ma")
              (Sample.port 0 "s1"))) !! 1
    = ServiceWorker.clients Scenario.two_open_state !! 1.
Proof.
  assert (ServiceWorker.clientMap Scenario.two_open_state !! "s1" = Some 0)
    as H1 by (vm_compute; reflexivity).
  assert (ServiceWorker.clientMap Scenario.two_open_state !! "s2" = Some 1)
    as H2 by (vm_compute; reflexivity).
  assert ("s1" ≠ "s2") as Hne by discriminate.
  destruct (sessions_do_not_share_clients
              (RJ := Sample.response_json) (QJ := Sample.request_json)
              (AJ := Sample.accept_json) Scenario.two_open "s1" "s2" 0 1
              H1 H2 Hne) as [Hc Hkeep].
  split; [exact Hc|]. apply Hkeep. reflexivity.
Defined.


Lemma acceptance_end_to_end_witness :
  snd (ServiceWorker.acceptSettled
         Scenario.accepting 0 (Some "Failed to fetch"))
  = [ServiceWorker.OfClient
       (LanguageServerServiceWorkerClient.ConsoleLog "Failed to fetch")].
Proof.
  assert (ServiceWorker.client_of Sample.one_session (Sample.port 0 "s1")
          = Some (0, Sample.worker "s1")) as Hc by (vm_compute; reflexivity).
  assert (Forall (λ e, ServiceWorker.resumes
                         (length (ServiceWorker.tasks Sample.one_session)) e
                       = false)
            (Sample.meanwhile_connect ++ [])) as Hes by (repeat constructor).
  pose proof (acceptance_end_to_end
                (RJ := Sample.response_json) (QJ := Sample.request_json)
                (AJ := Sample.accept_json)
                Sample.fresh_client Sample.browser Sample.ide "key" "c7"
                Sample.one_session (Sample.port 0 "s1") 0 (Sample.worker "s1")
                Sample.meanwhile_connect [] (Some "Failed to fetch")
                "no server" Hc Hes) as H.
  unfold LanguageServerClient.acceptedLastCompletion in H.
  cbn [LanguageServerClient.getMetadata] in H. cbv zeta in H.
  destruct H as (_ & _ & request & Heff & H).
  injection Heff as <-.
  match type of H with
  | match ?d with _ => _ end =>
      let v := eval vm_compute in d in change d with v in H
  end.
  cbv beta iota in H.
  destruct H as (_ & _ & Hlog & _). exact Hlog.
Defined.

(** ** What fires a token *)
Section firing.
Import ServiceWorker.
Context {Response : Type} {RJ : ProtoJson Response}
        {QJ : ProtoJson GetCompletionsRequest.t}
        {AJ : ProtoJson AcceptCompletionRequest.t}.

Local Abbreviation event := (event Response).

Lemma step_clients_quiet (st : state) (e : event) :
  (∀ r request port,
     e ≠ OnPortMessage (GetCompletionsRequestMessage r request) port) →
  ∀ c this, clients st !! c = Some this →
            clients (fst (step st e)) !! c = Some this.
Proof.
  intros He c this Hc.
  destruct e as [user uuid portal rid|m user|user|m|port|port|m port|i|i o|i f
                |i msg|i sent];
    simpl.
  - unfold onInstalled. by destruct (no_apiKey user).
  - unfold onMessageExternal. by repeat case_match.
  - done.
  - by destruct m.
  - by apply lookup_app_l_Some.
  - done.
  - destruct m as [r request|request|kind].
    + by destruct (He r request port).
    + unfold onPortMessage. by repeat case_match.
    + done.
  - unfold clientResolved. by repeat case_match.
  - unfold completionsSettled. by repeat case_match.
  - unfold acceptSettled. by repeat case_match.
  - unfold clientRejected. by repeat case_match.
  - unfold reportSettled. by repeat case_match.
Qed.

Lemma begin_fires_held (this : Client.state) (signal : nat) :
  Client.aborted this signal = false →
  Client.aborted (fst (Client.getCompletions_begin this)) signal = true →
  Client.abortController this = Some signal.
Proof.
  unfold Client.aborted, Client.getCompletions_begin. simpl.
  intros Hb Ha.
  destruct (decide (signal < length (Client.controllers this))) as [Hlt|Hge].
  - destruct (Client.abortController this) as [held|].
    + unfold Client.abort in Ha.
      rewrite lookup_app_l in Ha by (rewrite length_insert; lia).
      destruct (decide (held = signal)) as [->|Hne]; [done|].
      rewrite list_lookup_insert_ne in Ha by done. congruence.
    + rewrite lookup_app_l in Ha by lia. congruence.
  - assert (length (match Client.abortController this with
                    | Some c => Client.abort c (Client.controllers this)
                    | None => Client.controllers this
                    end) = length (Client.controllers this)) as Hlen.
    { destruct (Client.abortController this); [|done].
      apply length_insert. }
    destruct (decide (signal = length (Client.controllers this))) as [->|Hne].
    + rewrite lookup_app_r in Ha by lia.
      rewrite Hlen, Nat.sub_diag in Ha. done.
    + rewrite lookup_ge_None_2 in Ha; [done|].
      rewrite length_app, Hlen. simpl. lia.
Qed.

(** X14. Nothing but supersession fires a token: if a step of the service
    worker turns a controller of some client from not aborted to aborted,
    the step is a [getCompletions] frame on a port whose name the registry
    maps to that client, and the controller is the one the client held.  No
    disconnect, settled call or other message ever aborts anything. *)
Theorem token_fired_only_by_supersession (st : state) (e : event) (c : nat)
    (this this' : Client.state) (signal : nat) :
  clients st !! c = Some this →
  clients (fst (step st e)) !! c = Some this' →
  Client.aborted this signal = false →
  Client.aborted this' signal = true →
  Client.abortController this = Some signal
  ∧ ∃ r request port,
      e = OnPortMessage (GetCompletionsRequestMessage r request) port
      ∧ clientMap st !! name port = Some c.
Proof.
  intros Hc Hc' Hb Ha.
  assert ((∀ r request port,
             e ≠ OnPortMessage (GetCompletionsRequestMessage r request) port) →
          False) as Hquiet.
  { intros He. rewrite (step_clients_quiet st e He c this Hc) in Hc'.
    injection Hc' as <-. congruence. }
  destruct e as [user uuid portal rid|m user|user|m|port|port|m port|i|i o|i f
                |i msg|i sent];
    try (exfalso; apply Hquiet; intros; discriminate).
  destruct m as [r request|request|kind];
    try (exfalso; apply Hquiet; intros; discriminate).
  clear Hquiet.
  simpl in Hc'. unfold onPortMessage in Hc'.
  destruct (client_of st port) as [[c0 this0]|] eqn:Hcl;
    [|simpl in Hc'; congruence].
  unfold client_of in Hcl.
  destruct (clientMap st !! name port) as [c1|] eqn:Hm; simpl in Hcl; [|done].
  destruct (clients st !! c1) as [this1|] eqn:H1; simpl in Hcl; [|done].
  injection Hcl as <- <-.
  destruct (fromJsonString request) as [decoded|];
    [|simpl in Hc'; congruence].
  destruct (Client.getCompletions_begin this1) as [this1' s1] eqn:Hbegin.
  simpl in Hc'.
  destruct (decide (c1 = c)) as [->|Hne].
  - rewrite list_lookup_insert_eq in Hc' by (by eapply lookup_lt_Some).
    injection Hc' as <-. simplify_eq. split.
    + apply begin_fires_held; [done|]. exact Ha.
    + by exists r, request, port.
  - rewrite list_lookup_insert_ne in Hc' by done. congruence.
Qed.
End firing.

Lemma token_fired_only_by_supersession_witness :
  LanguageServerServiceWorkerClient.abortController Sample.calling = Some 0
  ∧ ServiceWorker.clientMap
      (fst (ServiceWorker.run
              (RJ := Sample.response_json) (QJ := Sample.request_json)
              (AJ := Sample.accept_json)
              ServiceWorker.initial Sample.first_call)) !! "s1" = Some 0.
Proof.
  assert (ServiceWorker.clients
            (fst (ServiceWorker.run
                    (RJ := Sample.response_json) (QJ := Sample.request_json)
                    (AJ := Sample.accept_json)
                    ServiceWorker.initial Sample.first_call)) !! 0
          = Some Sample.calling) as Hc by (vm_compute; reflexivity).
  assert (ServiceWorker.clients
            (fst (ServiceWorker.step
                    (RJ := Sample.response_json) (QJ := Sample.request_json)
                    (AJ := Sample.accept_json)
                    (fst (ServiceWorker.run
                            (RJ := Sample.response_json)
                            (QJ := Sample.request_json)
                            (AJ := Sample.accept_json)
                            ServiceWorker.initial Sample.first_call))
                    (ServiceWorker.OnPortMessage
                       (GetCompletionsRequestMessage (Num 2) "fn mai")
                       (Sample.port 0 "s1")))) !! 0
          = Some Scenario.superseded_client) as Hc'
    by (vm_compute; reflexivity).
  destruct (token_fired_only_by_supersession
              (RJ := Sample.response_json) (QJ := Sample.request_json)
              (AJ := Sample.accept_json) _ _ 0 Sample.calling
              Scenario.superseded_client 0 Hc Hc' eq_refl eq_refl)
    as (Hheld & r & request & port & He & Hm).
  split; [exact Hheld|]. by injection He as _ _ <-.
Defined.

(** ** How many calls of a session can be unfired *)
Section session_bound.
Import ServiceWorker.
Context {Response : Type} {RJ : ProtoJson Response}
        {QJ : ProtoJson GetCompletionsRequest.t}
        {AJ : ProtoJson AcceptCompletionRequest.t}.

Local Abbreviation event := (event Response).

Lemma length_filter_ne (L : list nat) (k : nat) :
  NoDup L →
  length L = length (filter (λ i, i ≠ k) L)
             + (if decide (k ∈ L) then 1 else 0).
Proof.
  induction L as [|x L IH]; intros Hnd; [done|].
  apply NoDup_cons in Hnd as [Hx Hnd]. specialize (IH Hnd).
  rewrite filter_cons. destruct (decide (x = k)) as [->|Hne].
  - rewrite decide_False by (by intros H; apply H).
    rewrite decide_True by left.
    rewrite decide_False in IH by done. simpl. lia.
  - rewrite decide_True by done. simpl.
    destruct (decide (k ∈ L)) as [Hin|Hnin].
    + rewrite decide_True by (by right). lia.
    + rewrite decide_False; [lia|].
      intros Hin. apply elem_of_cons in Hin as [->|?]; done.
Qed.

(** Different indices of elements with a property are no more than the
    elements with the property. *)
Lemma count_indices {A : Type} (P : A → Prop) `{!∀ x, Decision (P x)}
    (l : list A) (k : nat) (L : list nat) :
  NoDup L →
  (∀ i, i ∈ L → (k ≤ i)%nat ∧ ∃ x, l !! (i - k) = Some x ∧ P x) →
  (length L ≤ length (filter P l))%nat.
Proof.
  revert k L. induction l as [|a l IH]; intros k L Hnd HL.
  - destruct L as [|i L]; [done|].
    destruct (HL i) as [_ (x & Hx & _)]; [left|]. done.
  - rewrite (length_filter_ne L k Hnd).
    assert (length (filter (λ i, i ≠ k) L) ≤ length (filter P l))%nat as Hrest.
    { apply (IH (S k)); [by apply NoDup_filter|].
      intros i Hi. apply list_elem_of_filter in Hi as [Hne Hi].
      destruct (HL i Hi) as [Hle (x & Hx & HP)]. split; [lia|].
      exists x. split; [|done].
      replace (i - k) with (S (i - S k)) in Hx by lia. done. }
    rewrite filter_cons. destruct (decide (k ∈ L)) as [Hin|Hnin].
    + destruct (HL k Hin) as [_ (x & Hx & HP)].
      rewrite Nat.sub_diag in Hx. injection Hx as ->.
      rewrite decide_True by done. simpl. lia.
    + destruct (decide (P a)); simpl; lia.
Qed.

Lemma omap_insert_sublist {A B : Type} (f : A → option B) (l : list A)
    (i : nat) (t t' : A) :
  l !! i = Some t → f t' = f t ∨ f t' = None →
  omap f (<[i := t']> l) `sublist_of` omap f l.
Proof.
  revert i. induction l as [|x l IH]; intros i Hi Hf; [done|].
  destruct i as [|i]; simpl in *.
  - injection Hi as ->. destruct Hf as [-> | ->].
    + done.
    + destruct (f t); [by apply sublist_cons|done].
  - specialize (IH i Hi Hf). destruct (f x); [by apply sublist_skip|done].
Qed.

Lemma client_of_map (st : state) (port : Port) (c : nat) (this : Client.state) :
  client_of st port = Some (c, this) → clientMap st !! name port = Some c.
Proof.
  unfold client_of.
  destruct (clientMap st !! name port) as [c'|]; simpl; [|done].
  destruct (clients st !! c'); simpl; [|done]. by intros [= <- _].
Qed.

(** What a step can do to the list of suspended invocations. *)
Lemma step_tasks (st : state) (e : event) :
  tasks (fst (step st e)) = tasks st
  ∨ (∃ port r c this request,
       client_of st port = Some (c, this)
       ∧ tasks (fst (step st e))
         = tasks st ++ [AwaitClient port r c request
                          (snd (Client.getCompletions_begin this))])
  ∨ (∃ c request,
       tasks (fst (step st e)) = tasks st ++ [AwaitClientAccept c request])
  ∨ (∃ i t t',
       tasks st !! i = Some t
       ∧ tasks (fst (step st e)) = <[i := t']> (tasks st)
       ∧ (t' = Finished ∨ t' = AwaitAccept
          ∨ (∃ port r, t' = AwaitReport port r)
          ∨ ∃ port r c request signal,
              t = AwaitClient port r c request signal
              ∧ t' = AwaitCompletions port r c signal)).
Proof.
  destruct e as [user uuid portal rid|m user|user|m|port|port|m port|i|i o|i f
                |i msg|i sent];
    simpl.
  - left. unfold onInstalled. by destruct (no_apiKey user).
  - left. unfold onMessageExternal. by repeat case_match.
  - by left.
  - left. by destruct m.
  - by left.
  - by left.
  - unfold onPortMessage. destruct m as [r request|request|kind].
    + destruct (client_of st port) as [[c this]|] eqn:Hc; [|by left].
      destruct (fromJsonString request) as [decoded|]; [|by left].
      right. left. exists port, r, c, this, decoded.
      split; [done|]. unfold Client.getCompletions_begin. by simpl.
    + destruct (client_of st port) as [[c this]|]; [|by left].
      destruct (fromJsonString request) as [decoded|]; [|by left].
      right. right. left. by eexists _, _.
    + by left.
  - unfold clientResolved.
    destruct (tasks st !! i) as [t|] eqn:Hi; [|by left].
    destruct t; try (by left); destruct (clients st !! client);
      try (by left); right; right; right; eexists i, _, _;
      (split; [done|]); (split; [done|]).
    + right. right. right. by eexists _, _, _, _, _.
    + right. by left.
  - unfold completionsSettled.
    destruct (tasks st !! i) as [t|] eqn:Hi; [|by left].
    destruct t; try (by left). destruct (clients st !! client); [|by left].
    destruct (Client.getCompletions_settled _ _ _);
      right; right; right; eexists i, _, _; (split; [done|]);
      (split; [done|]).
    + by left.
    + right. right. left. by eexists _, _.
  - unfold acceptSettled.
    destruct (tasks st !! i) as [t|] eqn:Hi; [|by left].
    destruct t; try (by left).
    right. right. right. eexists i, _, _. split; [done|]. split; [done|].
    by left.
  - unfold clientRejected.
    destruct (tasks st !! i) as [t|] eqn:Hi; [|by left].
    destruct t; try (by left);
      right; right; right; eexists i, _, _; (split; [done|]);
      (split; [done|]); by left.
  - unfold reportSettled.
    destruct (tasks st !! i) as [t|] eqn:Hi; [|by left].
    destruct t; try (by left).
    right. right. right. eexists i, _, _. split; [done|]. split; [done|].
    by left.
Qed.

Lemma step_task_session_kept (st : state) (e : event) (t : task) :
  task_of_session st t → task_of_session (fst (step st e)) t.
Proof.
  destruct t as [port r c req signal|port r c signal|port r|c req| |]; simpl;
    try done.
  all: intros (this & Hc & Hs);
    destruct (step_client_kept st e c this Hc) as (this' & Hc' & Hs');
    exists this'; split; [done|congruence].
Qed.

Lemma step_registry_of_sessions (st : state) (e : event) :
  registry_of_sessions st → registry_of_sessions (fst (step st e)).
Proof.
  intros Hr s c. rewrite step_clientMap.
  assert (∀ s c, clientMap st !! s = Some c →
            ∃ this, clients (fst (step st e)) !! c = Some this
                    ∧ Client.sessionId this = s) as Hkept.
  { intros s' c' H. destruct (Hr s' c' H) as (this & Hthis & <-).
    by apply step_client_kept. }
  destruct e as [user uuid portal rid|m user|user|m|port|port|m port|i|i o|i f
                |i msg|i sent];
    try (by apply Hkept).
  - destruct (decide (name port = s)) as [<-|Hne].
    + rewrite lookup_insert_eq. intros [= <-].
      exists (Client.constructor (name port)). split; [|done]. simpl.
      by rewrite lookup_app_r, Nat.sub_diag.
    + rewrite lookup_insert_ne by done. by apply Hkept.
  - intros H. apply lookup_delete_Some in H as [_ H]. by apply Hkept.
Qed.

Lemma step_task_session (st : state) (e : event) :
  registry_of_sessions st →
  Forall (task_of_session st) (tasks st) →
  Forall (task_of_session (fst (step st e))) (tasks (fst (step st e))).
Proof.
  intros Hr Hall.
  assert (Forall (task_of_session (fst (step st e))) (tasks st)) as Hkept.
  { eapply Forall_impl; [exact Hall|]. intros t.
    apply step_task_session_kept. }
  destruct (step_tasks st e)
    as [->|[(port & r & c & this & req & Hc & ->)
           |[(c & req & ->)|(i & t & t' & Hi & -> & Ht')]]].
  - done.
  - apply Forall_app. split; [done|]. apply Forall_singleton.
    apply step_task_session_kept. simpl. exists this. split.
    + by apply client_of_Some in Hc.
    + destruct (Hr _ _ (client_of_map _ _ _ _ Hc)) as (this0 & H0 & Hs).
      apply client_of_Some in Hc. congruence.
  - apply Forall_app. split; [done|]. by apply Forall_singleton.
  - apply Forall_insert; [done|].
    destruct Ht' as [->|[->|[(port & r & ->)
                            |(port & r & c & req & signal & -> & ->)]]];
      [done..|].
    rewrite Forall_lookup in Hkept. exact (Hkept i _ Hi).
Qed.

Lemma step_calls_NoDup (st : state) (e : event) :
  Forall (task_valid st) (tasks st) →
  NoDup (omap call_of (tasks st)) →
  NoDup (omap call_of (tasks (fst (step st e)))).
Proof.
  intros Hv Hnd.
  destruct (step_tasks st e)
    as [->|[(port & r & c & this & req & Hc & ->)
           |[(c & req & ->)|(i & t & t' & Hi & -> & Ht')]]].
  - done.
  - rewrite omap_app. simpl. apply NoDup_app. split; [done|].
    split; [|apply NoDup_singleton].
    intros call Hin Hnew. apply list_elem_of_singleton in Hnew as ->.
    apply list_elem_of_omap in Hin as (t & Ht & Hcall).
    rewrite Forall_forall in Hv. specialize (Hv t Ht).
    apply client_of_Some in Hc.
    assert (snd (Client.getCompletions_begin this)
            = length (Client.controllers this)) as Hlen.
    { unfold Client.getCompletions_begin. simpl.
      destruct (Client.abortController this); [|done].
      apply length_insert. }
    simpl in Hlen.
    destruct t as [p' r' c' req' s'|p' r' c' s'|p' r'|c' req'| |];
      simpl in Hcall; try done; injection Hcall as -> Hs;
      destruct Hv as (this' & Hc' & Hlt); simplify_eq; lia.
  - rewrite omap_app. simpl. by rewrite app_nil_r.
  - eapply sublist_NoDup; [exact Hnd|].
    eapply omap_insert_sublist; [exact Hi|].
    destruct Ht' as [->|[->|[(port & r & ->)
                            |(port & r & c & req & signal & -> & ->)]]];
      [by right|by right|by right|by left].
Qed.

Lemma filter_insert_same {A : Type} (P : A → Prop) `{!∀ x, Decision (P x)}
    (l : list A) (i : nat) (x x' : A) :
  l !! i = Some x → (P x ↔ P x') →
  length (filter P (<[i := x']> l)) = length (filter P l).
Proof.
  revert i. induction l as [|a l IH]; intros i Hi HP; [done|].
  destruct i as [|i]; simpl in *.
  - injection Hi as ->. rewrite !filter_cons.
    destruct (decide (P x)), (decide (P x')); simpl; tauto.
  - rewrite !filter_cons.
    destruct (decide (P a)); simpl; by rewrite (IH i Hi HP).
Qed.

Lemma step_session_clients (s : string) (st : state) (e : event) :
  length (filter (λ this, Client.sessionId this = s)
            (clients (fst (step st e))))
  = length (filter (λ this, Client.sessionId this = s) (clients st))
    + (if connects s e then 1 else 0).
Proof.
  assert ((∃ port, e = OnConnectExternal port)
          ∨ (connects s e = false ∧ ∀ port, e ≠ OnConnectExternal port))
    as [[port ->]|[-> Hno]].
  { destruct e; try (right; split; [done|intros; discriminate]).
    left. by eexists. }
  - simpl. rewrite filter_app, length_app, filter_cons, filter_nil. simpl.
    case_decide; case_bool_decide; try done.
  - rewrite Nat.add_0_r.
    destruct (step_clients st e)
      as [->|[(port & He & _)|(c' & this0 & H0 & ->)]].
    + done.
    + by destruct (Hno port).
    + by apply (filter_insert_same _ _ _ this0).
Qed.

Lemma run_calls_inv (es : list event) (st : state) :
  Forall (task_valid st) (tasks st) →
  registry_of_sessions st →
  Forall (task_of_session st) (tasks st) →
  NoDup (omap call_of (tasks st)) →
  Forall (task_of_session (fst (run st es))) (tasks (fst (run st es)))
  ∧ NoDup (omap call_of (tasks (fst (run st es)))).
Proof.
  revert st. induction es as [|e es IH]; intros st Hv Hr Hs Hnd; [done|].
  rewrite sw_run_cons. apply IH.
  - by apply step_task_valid.
  - by apply step_registry_of_sessions.
  - by apply step_task_session.
  - by apply step_calls_NoDup.
Qed.

Lemma run_session_clients (s : string) (es : list event) (st : state) :
  length (filter (λ this, Client.sessionId this = s)
            (clients (fst (run st es))))
  = length (filter (λ this, Client.sessionId this = s) (clients st))
    + length (filter (λ e, connects s e = true) es).
Proof.
  revert st. induction es as [|e es IH]; intros st; [simpl; lia|].
  rewrite sw_run_cons, IH, step_session_clients, filter_cons.
  destruct (connects s e); case_decide; try done; simpl; lia.
Qed.

Lemma omap_filter_sublist {A B : Type} (f : A → option B) (P : A → Prop)
    `{!∀ x, Decision (P x)} (l : list A) :
  omap f (filter P l) `sublist_of` omap f l.
Proof.
  induction l as [|x l IH]; [done|].
  rewrite filter_cons. destruct (decide (P x)); simpl.
  - destruct (f x); [by apply sublist_skip|done].
  - destruct (f x); [by apply sublist_cons|done].
Qed.

(** An unfired call of a session runs on a client of that session and its
    signal is the one this client holds. *)
Lemma unfired_held (st : state) (s : string) (t : task) :
  Forall single_flight (clients st) →
  Forall (task_valid st) (tasks st) →
  Forall (task_of_session st) (tasks st) →
  t ∈ tasks st → unfired st s t = true →
  ∃ c signal this,
    call_of t = Some (c, signal)
    ∧ clients st !! c = Some this
    ∧ Client.sessionId this = s
    ∧ Client.abortController this = Some signal.
Proof.
  intros Hsf Hv Hs Ht Hu.
  rewrite Forall_forall in Hv, Hs. specialize (Hv t Ht). specialize (Hs t Ht).
  assert (∀ port c signal,
            task_valid st (AwaitCompletions port NaN c signal) →
            task_of_session st (AwaitCompletions port NaN c signal) →
            bool_decide (name port = s)
            && match clients st !! c with
               | Some this => negb (Client.aborted this signal)
               | None => false
               end = true →
            ∃ this, clients st !! c = Some this
                    ∧ Client.sessionId this = s
                    ∧ Client.abortController this = Some signal) as Hcore.
  { intros port c signal (this & Hc & Hlt) (this' & Hc' & Hn) H.
    apply andb_true_iff in H as [Hp Ha].
    apply bool_decide_eq_true in Hp. rewrite Hc in Ha.
    apply negb_true_iff in Ha. simplify_eq.
    exists this. split; [done|]. split; [done|].
    rewrite Forall_lookup in Hsf. pose proof (Hsf c this Hc) as Hone.
    apply (single_flight_unfired this signal Hone).
    unfold Client.aborted in Ha.
    destruct (Client.controllers this !! signal) as [[]|] eqn:Hl;
      simpl in Ha; [done|done|].
    apply lookup_ge_None in Hl. lia. }
  destruct t as [port r c req signal|port r c signal|port r|c req| |];
    simpl in Hu; try done.
  - destruct (Hcore port c signal Hv Hs Hu) as (this & ? & ? & ?).
    by exists c, signal, this.
  - destruct (Hcore port c signal Hv Hs Hu) as (this & ? & ? & ?).
    by exists c, signal, this.
Qed.

Lemma unfired_bound (st : state) (s : string) :
  Forall single_flight (clients st) →
  Forall (task_valid st) (tasks st) →
  Forall (task_of_session st) (tasks st) →
  NoDup (omap call_of (tasks st)) →
  (length (unfired_calls st s)
   ≤ length (filter (λ this, Client.sessionId this = s) (clients st)))%nat.
Proof.
  intros Hsf Hv Hs Hnd. unfold unfired_calls.
  set (U := filter (λ t, unfired st s t = true) (tasks st)).
  assert (∀ t, t ∈ U →
            ∃ c signal this,
              call_of t = Some (c, signal)
              ∧ clients st !! c = Some this
              ∧ Client.sessionId this = s
              ∧ Client.abortController this = Some signal) as HU.
  { intros t Ht. apply list_elem_of_filter in Ht as [Hu Ht].
    by apply unfired_held. }
  assert (length U = length (fst <$> omap call_of U)) as ->.
  { rewrite length_fmap. clearbody U.
    induction U as [|t U IH]; [done|]. simpl.
    destruct (HU t) as (c & sg & this & -> & _); [left|]. simpl.
    f_equal. apply IH. intros t' Ht'. apply HU. by right. }
  apply (count_indices _ (clients st) 0).
  - apply NoDup_fmap_2_strong.
    + intros [c1 s1] [c2 s2] H1 H2 Heq. simpl in Heq. subst c2.
      apply list_elem_of_omap in H1 as (t1 & Ht1 & Hc1).
      apply list_elem_of_omap in H2 as (t2 & Ht2 & Hc2).
      destruct (HU t1 Ht1) as (c & sg & this & Hcall & Hcl & _ & Hheld).
      destruct (HU t2 Ht2) as (c' & sg' & this' & Hcall' & Hcl' & _ & Hheld').
      simplify_eq. done.
    + eapply sublist_NoDup; [exact Hnd|]. apply omap_filter_sublist.
  - intros c Hc. split; [lia|]. rewrite Nat.sub_0_r.
    apply list_elem_of_fmap in Hc as ([c' sg] & -> & Hin).
    apply list_elem_of_omap in Hin as (t & Ht & Hcall).
    destruct (HU t Ht) as (c & sg' & this & Hcall' & Hcl & Hn & _).
    simplify_eq. by exists this.
Qed.

(** X15. At any point of any run, the suspended completion calls of a
    session whose token has not fired are no more than the connections that
    were made under the name of the session.  So a session that has
    connected once never has two unfired calls; every further unfired call
    needs a further connection. *)
Theorem unfired_calls_bounded_by_connections (es : list event) (s : string) :
  (length (unfired_calls (fst (run initial es)) s)
   ≤ length (filter (λ e, connects s e = true) es))%nat.
Proof.
  pose proof (run_session_clients s es initial) as Hcount. simpl in Hcount.
  rewrite <- Hcount.
  destruct (run_calls_inv es initial) as [Hs Hnd]; try by constructor.
  { intros s' c H. simpl in H. by rewrite lookup_empty in H. }
  apply unfired_bound; [|  |done|done].
  - apply run_single_flight. constructor.
  - apply run_task_valid. constructor.
Qed.
End session_bound.
